(** * ecncrpty: batch Caesar transform with three execution strategies

    Shallow embedding of the server (the Express application with
    [caesarCipher], [processSequentially], [processWithWorkerThreads],
    [processWithChildProcesses] and the [/process] route) and of its two
    shard runners (the worker-thread script and the child-process script),
    followed by the properties of the specification that were checked
    against them.

    Conventions.
    - A JavaScript string that holds file content is the list of its
      UTF-16 code units ([jsstring]); [length] is the JS [.length].
    - JavaScript numbers that the code only uses as integers are [Z]; the
      remainder operator [%] is [Z.rem] (the sign follows the dividend).
    - Names, paths and the [operation]/[method] fields are Rocq strings.
    - The Node host (clock, random source, file system permissions, CPU
      count, [path] helpers) is a record of oracles, [Host]; the mutable
      part of the world is [State]. *)

From Stdlib Require Import ZArith Lia List Bool.
From stdpp Require Import base option list strings gmap pretty.
Import ListNotations.

Local Open Scope Z_scope.

(** ** JavaScript strings *)

Abbreviation jsstring := (list Z).

(** An ASCII literal as a JS string. *)
Definition js (s : string) : jsstring :=
  map (fun a => Z.of_N (Ascii.N_of_ascii a)) (String.list_ascii_of_string s).

(** [String.fromCharCode(n)]: a one-unit string holding [ToUint16 n]. *)
Definition fromCharCode (n : Z) : jsstring := [n mod 65536].

(** [text.replace(/[a-zA-Z]/g, fn)]: every code unit in the class is
    replaced by the string [fn] returns for it, the others are kept. *)
Definition is_letter (c : Z) : bool :=
  ((65 <=? c) && (c <=? 90)) || ((97 <=? c) && (c <=? 122)).

Definition replace_letters (fn : Z -> jsstring) (text : jsstring) : jsstring :=
  flat_map (fun c => if is_letter c then fn c else [c]) text.

(** ** The transform (identical in the server and in both runners)

    [shift] is an integer JavaScript number; the sums below stay far
    inside the range where such numbers are exact. *)

Definition shiftChar (actualShift : Z) (char : Z) : jsstring :=
  let start := if char <=? 90 then 65 else 97 in
  fromCharCode (Z.rem (char - start + actualShift + 26) 26 + start).

Definition caesarCipher (text : jsstring) (shift : Z) (decrypt : bool) : jsstring :=
  let actualShift := if decrypt then - shift else shift in
  replace_letters (shiftChar actualShift) text.

(** The alphabet base of a letter and its offset in the alphabet. *)
Definition start_of (c : Z) : Z := if c <=? 90 then 65 else 97.
Definition offset_of (c : Z) : Z := c - start_of c.

(** ** Data exchanged with the client *)

(** A file descriptor as the upload route returns it and the client posts
    it back ([size] is the uploaded size; the executors read only
    [originalname] and [path]). *)
Record File := {
  originalname : string;
  filename : string;
  path : string;
  fsize : Z
}.

(** One entry of a [results] array.  The runners add an [operation]
    field, the sequential executor does not. *)
Record Result := {
  originalName : string;
  processedPath : string;
  r_size : Z;
  r_operation : option string
}.

(** What an executor returns. *)
Record Outcome := {
  results : list Result;
  processingTime : Z;
  method : string
}.

(** ** The Node host *)

Inductive Event :=
| EvRead (p : string)                     (* fs.readFile was asked for p *)
| EvWrite (p : string) (data : jsstring)  (* fs.writeFile stored data at p *)
| EvWorker (shard : list File)            (* new Worker(..., { workerData }) *)
| EvSpawn (shard : list File)             (* spawn('node', [script, JSON]) *)
| EvError (tag : string).                 (* console.error(tag, error) *)

Record Host := {
  cpus : nat;                      (* os.cpus().length *)
  clock : nat -> Z;                (* the n-th reading of Date.now() *)
  random : nat -> string;          (* the n-th Math.random().toString(36).substr(2, 9) *)
  writable : string -> bool;       (* does fs.writeFile to this path succeed *)
  path_join : string -> string -> string;
  path_basename : string -> string
}.

Record State := {
  fs : gmap string jsstring;       (* content of the existing files *)
  ticks : nat;                     (* Date.now() readings taken so far *)
  draws : nat;                     (* Math.random() draws taken so far *)
  log : list Event
}.

Definition emit (e : Event) (st : State) : State :=
  {| fs := fs st; ticks := ticks st; draws := draws st; log := log st ++ [e] |}.

(** [await fs.readFile(p, 'utf8')]: [None] when the promise rejects. *)
Definition readFile (p : string) (st : State) : option jsstring * State :=
  (fs st !! p, emit (EvRead p) st).

(** [await fs.writeFile(p, data)]: [false] when the promise rejects. *)
Definition writeFile (h : Host) (p : string) (data : jsstring) (st : State)
  : bool * State :=
  if writable h p
  then (true, emit (EvWrite p data)
                {| fs := <[p := data]> (fs st); ticks := ticks st;
                   draws := draws st; log := log st |})
  else (false, st).

Definition dateNow (h : Host) (st : State) : Z * State :=
  (clock h (ticks st),
   {| fs := fs st; ticks := S (ticks st); draws := draws st; log := log st |}).

Definition mathRandom (h : Host) (st : State) : string * State :=
  (random h (draws st),
   {| fs := fs st; ticks := ticks st; draws := S (draws st); log := log st |}).

Definition consoleError (tag : string) (st : State) : State := emit (EvError tag) st.

(** [operation === 'decrypt'] *)
Definition is_decrypt (operation : string) : bool := String.eqb operation "decrypt".

(** ** Sequential executor *)

(** path.join('processed', `${operation}_${Date.now()}_${file.originalname}`) *)
Definition seq_outputPath (h : Host) (operation : string) (now : Z) (name : string)
  : string :=
  path_join h "processed" (operation +:+ "_" +:+ pretty now +:+ "_" +:+ name).

(** One iteration of the [for (const file of files)] loop: the [try]
    block, and the [catch] that only logs. *)
Definition seq_iteration (h : Host) (operation : string) (shift : Z)
    (acc : list Result * State) (file : File) : list Result * State :=
  let '(res, st) := acc in
  let '(read, st1) := readFile (path file) st in
  match read with
  | None => (res, consoleError "Error processing file:" st1)
  | Some content =>
      let processedContent := caesarCipher content shift (is_decrypt operation) in
      let '(now, st2) := dateNow h st1 in
      let outputPath := seq_outputPath h operation now (originalname file) in
      let '(ok, st3) := writeFile h outputPath processedContent st2 in
      if ok
      then (res ++ [{| originalName := originalname file;
                       processedPath := outputPath;
                       r_size := Z.of_nat (length content);
                       r_operation := None |}], st3)
      else (res, consoleError "Error processing file:" st3)
  end.

Definition processSequentially (h : Host) (files : list File)
    (operation : string) (shift : Z) (st : State) : Outcome * State :=
  let '(startTime, st0) := dateNow h st in
  let '(res, st1) := fold_left (seq_iteration h operation shift) files ([], st0) in
  let '(endTime, st2) := dateNow h st1 in
  ({| results := res; processingTime := endTime - startTime;
      method := "Sequential" |}, st2).

(** ** Partitioning (the same loop in both pool executors) *)

(** [Math.ceil(a / b)] for array lengths and core counts, where the
    floating-point quotient is exact enough for the ceiling to be the
    integer ceiling.  For [b = 0] JavaScript gives [Infinity] or [NaN];
    the loop below then runs zero times and never reads it. *)
Definition ceil_div (a b : nat) : nat := ((a + b - 1) / b)%nat.

(** [files.slice(from, to)] for [0 <= from <= to]. *)
Definition slice {A} (l : list A) (from to : nat) : list A :=
  take (to - from)%nat (drop from l).

(** The [for (let i = 0; i < numWorkers; i++)] loop, [n] iterations left:
    an empty slice ends it ([break]). *)
Fixpoint shard_loop (files : list File) (filesPerWorker : nat) (n i : nat)
  : list (list File) :=
  match n with
  | O => []
  | S n' =>
      let workerFiles := slice files (i * filesPerWorker) ((i + 1) * filesPerWorker) in
      match workerFiles with
      | [] => []
      | _ :: _ => workerFiles :: shard_loop files filesPerWorker n' (S i)
      end
  end.

Definition partition (files : list File) (numWorkers : nat) : list (list File) :=
  shard_loop files (ceil_div (length files) numWorkers) numWorkers 0.

(** [Math.min(os.cpus().length, files.length)] *)
Definition pool_size (h : Host) (files : list File) : nat :=
  Nat.min (cpus h) (length files).

(** ** Shard runners *)

(** path.join('processed',
      `${operation}_${Date.now()}_${Math.random()...}_${file.originalname}`) *)
Definition worker_outputPath (h : Host) (operation : string) (now : Z)
    (token name : string) : string :=
  path_join h "processed"
    (operation +:+ "_" +:+ pretty now +:+ "_" +:+ token +:+ "_" +:+ name).

(** Where a runner stands inside the body of its loop.  Each phase ends
    with one action on the shared host; other runners may act between
    two phases. *)
Inductive Phase :=
| AtRead                                            (* before await fs.readFile *)
| AtStamp (content : jsstring)                      (* before Date.now(), Math.random() *)
| AtWrite (content : jsstring) (outputPath : string). (* before await fs.writeFile *)

Record Runner := {
  shard : list File;        (* the files it was given *)
  todo : list File;         (* the rest of the loop, current file first *)
  phase : Phase;
  local : list Result       (* its own results array *)
}.

Definition start_runner (files : list File) : Runner :=
  {| shard := files; todo := files; phase := AtRead; local := [] |}.

Inductive Advance :=
| Next (r : Runner)               (* the loop goes on *)
| LoopDone (res : list Result)    (* the loop has ended *)
| Thrown.                         (* an awaited promise rejected *)

(** The loop of [processFiles], one awaited action at a time (the two
    runner scripts have the same loop). *)
Definition loop_step (h : Host) (operation : string) (shift : Z)
    (r : Runner) (st : State) : Advance * State :=
  match todo r with
  | [] => (LoopDone (local r), st)
  | file :: rest =>
      match phase r with
      | AtRead =>
          let '(read, st1) := readFile (path file) st in
          match read with
          | None => (Thrown, st1)
          | Some content =>
              (Next {| shard := shard r; todo := todo r;
                       phase := AtStamp content; local := local r |}, st1)
          end
      | AtStamp content =>
          let '(now, st1) := dateNow h st in
          let '(token, st2) := mathRandom h st1 in
          let outputPath :=
            worker_outputPath h operation now token (originalname file) in
          (Next {| shard := shard r; todo := todo r;
                   phase := AtWrite content outputPath; local := local r |}, st2)
      | AtWrite content outputPath =>
          let processedContent := caesarCipher content shift (is_decrypt operation) in
          let '(ok, st1) := writeFile h outputPath processedContent st in
          if ok
          then (Next {| shard := shard r; todo := rest; phase := AtRead;
                        local := local r ++
                          [{| originalName := originalname file;
                              processedPath := path_basename h outputPath;
                              r_size := Z.of_nat (length content);
                              r_operation := Some operation |}] |}, st1)
          else (Thrown, st1)
      end
  end.

(** What a runner tells its parent when it ends. *)
Inductive Signal :=
| Message (res : list Result)               (* parentPort.postMessage(res) *)
| Close (code : Z) (output : list Result).  (* exit code, parsed stdout *)

Inductive Task :=
| Running (r : Runner)
| Ended.

Module CryptoWorker.
(** The worker-thread script: [try { loop; postMessage(results) }
    catch { console.error; postMessage([]) }]. *)
Definition processFiles (h : Host) (operation : string) (shift : Z)
    (r : Runner) (st : State) : Task * option Signal * State :=
  let '(adv, st1) := loop_step h operation shift r st in
  match adv with
  | Next r' => (Running r', None, st1)
  | LoopDone res => (Ended, Some (Message res), st1)
  | Thrown => (Ended, Some (Message []), consoleError "Worker error:" st1)
  end.
End CryptoWorker.

Module CryptoProcess.
(** The child-process script: [try { loop; console.log(JSON(results)) }
    catch { console.error; console.log(JSON([])); process.exit(1) }]. *)
Definition processFiles (h : Host) (operation : string) (shift : Z)
    (r : Runner) (st : State) : Task * option Signal * State :=
  let '(adv, st1) := loop_step h operation shift r st in
  match adv with
  | Next r' => (Running r', None, st1)
  | LoopDone res => (Ended, Some (Close 0 res), st1)
  | Thrown => (Ended, Some (Close 1 []), consoleError "Process error:" st1)
  end.
End CryptoProcess.

(** ** Pools *)

Definition Script :=
  Host -> string -> Z -> Runner -> State -> Task * option Signal * State.

Record Pool := {
  tasks : list Task;          (* one per dispatched shard *)
  arrived : list Signal;      (* signals in the order the parent handled them *)
  world : State
}.

(** The task with index [i] performs its next action. *)
Definition pool_step (script : Script) (h : Host) (operation : string)
    (shift : Z) (p : Pool) (i : nat) : Pool :=
  match tasks p !! i with
  | Some (Running r) =>
      let '(t, sig, st) := script h operation shift r (world p) in
      {| tasks := <[i := t]> (tasks p);
         arrived := arrived p ++ option_list sig;
         world := st |}
  | _ => p
  end.

(** A schedule is the order in which the tasks act. *)
Definition run_pool (script : Script) (h : Host) (operation : string)
    (shift : Z) (sched : list nat) (p : Pool) : Pool :=
  fold_left (pool_step script h operation shift) sched p.

Definition all_ended (p : Pool) : bool :=
  forallb (fun t => match t with Ended => true | Running _ => false end) (tasks p).

Definition launch (ev : list File -> Event) (shards : list (list File))
    (st : State) : Pool :=
  {| tasks := map (fun s => Running (start_runner s)) shards;
     arrived := [];
     world := fold_left (fun st s => emit (ev s) st) shards st |}.

(** ** Thread-pool executor *)

(** [worker.on('message', result => { results.push(...result); resolve() })] *)
Definition pushed (sig : Signal) : list Result :=
  match sig with
  | Message res => res
  | Close code output => if code =? 0 then output else []
  end.

(** [None]: the schedule ends while [Promise.all] is still pending.
    The worker script catches whatever its loop throws, so the [error]
    event of a worker, which would reject, does not occur here. *)
Definition processWithWorkerThreads (h : Host) (files : list File)
    (operation : string) (shift : Z) (sched : list nat) (st : State)
  : option Outcome * State :=
  let '(startTime, st0) := dateNow h st in
  let numWorkers := pool_size h files in
  let p := run_pool CryptoWorker.processFiles h operation shift sched
             (launch EvWorker (partition files numWorkers) st0) in
  if all_ended p
  then let '(endTime, st1) := dateNow h (world p) in
       (Some {| results := flat_map pushed (arrived p);
                processingTime := endTime - startTime;
                method := "Worker Threads" |}, st1)
  else (None, world p).

(** ** Process-pool executor *)

Inductive Completion :=
| Fulfilled (o : Outcome)
| Rejected (message : string).

(** [child.on('close', code => ...)]: with code 0 the parsed output is
    pushed and the promise resolves, otherwise the promise rejects with
    [new Error(`Process exited with code ${code}`)].  (The output of a
    child that exits with 0 is the JSON text of its results, so the
    [JSON.parse] of the handler does not throw; a child that cannot be
    spawned is outside this model.) *)
Definition rejection (sig : Signal) : option string :=
  match sig with
  | Message _ => None
  | Close code _ =>
      if code =? 0 then None
      else Some ("Process exited with code " +:+ pretty code)
  end.

Definition processWithChildProcesses (h : Host) (files : list File)
    (operation : string) (shift : Z) (sched : list nat) (st : State)
  : option Completion * State :=
  let '(startTime, st0) := dateNow h st in
  let numProcesses := pool_size h files in
  let p := run_pool CryptoProcess.processFiles h operation shift sched
             (launch EvSpawn (partition files numProcesses) st0) in
  match omap rejection (arrived p) with
  | message :: _ =>
      (* Promise.all rejects with the first rejection *)
      (Some (Rejected message), world p)
  | [] =>
      if all_ended p
      then let '(endTime, st1) := dateNow h (world p) in
           (Some (Fulfilled {| results := flat_map pushed (arrived p);
                               processingTime := endTime - startTime;
                               method := "Child Processes" |}), st1)
      else (None, world p)
  end.

(** ** The /process route *)

(** [req.body.files] *)
Inductive FilesField :=
| FilesAbsent                       (* undefined, null or another falsy value *)
| FilesNotArray                     (* a value that is not an array *)
| FilesArray (files : list File).

Record Body := {
  b_files : FilesField;
  b_operation : string;
  b_method : string;
  b_shift : option Z                (* absent: the default 3 *)
}.

Inductive Response :=
| Ok200 (o : Outcome)               (* { success: true, ...result } *)
| Bad400 (message : string)
| Err500 (message : string).

Definition process_route (h : Host) (sched : list nat) (body : Body) (st : State)
  : option Response * State :=
  let shift := default 3 (b_shift body) in
  let operation := b_operation body in
  match b_files body with
  | FilesArray (f :: fl) =>
      let files := f :: fl in
      if String.eqb (b_method body) "multithreading" then
        let '(o, st1) := processWithWorkerThreads h files operation shift sched st in
        (Ok200 <$> o, st1)
      else if String.eqb (b_method body) "multiprocessing" then
        let '(c, st1) := processWithChildProcesses h files operation shift sched st in
        match c with
        | Some (Fulfilled o) => (Some (Ok200 o), st1)
        | Some (Rejected _) =>
            (Some (Err500 "Error processing files"),
             consoleError "Processing error:" st1)
        | None => (None, st1)
        end
      else if String.eqb (b_method body) "sequential" then
        let '(o, st1) := processSequentially h files operation shift st in
        (Some (Ok200 o), st1)
      else (Some (Bad400 "Invalid processing method"), st)
  | _ => (Some (Bad400 "No files provided"), st)
  end.

(** ** Vocabulary of the properties *)

(** What the strategies are compared on: the name and size of a result. *)
Definition entry (r : Result) : string * Z := (originalName r, r_size r).

(** The [console.error] calls and the completed writes of a log. *)
Definition is_error (e : Event) : bool :=
  match e with EvError _ => true | _ => false end.

Definition errors (l : list Event) : nat := length (List.filter is_error l).

Definition output_of (e : Event) : option (string * jsstring) :=
  match e with EvWrite p data => Some (p, data) | _ => None end.

Definition outputs (l : list Event) : list (string * jsstring) := omap output_of l.

(** The runners a log shows to have been created. *)
Definition is_dispatch (e : Event) : bool :=
  match e with EvWorker _ | EvSpawn _ => true | _ => false end.

Definition dispatched (l : list Event) : nat := length (List.filter is_dispatch l).

(** The entry a job yields when its source is read as it was when the
    batch started. *)
Definition expected (fs0 : gmap string jsstring) (f : File) : string * Z :=
  (originalname f, Z.of_nat (length (default [] (fs0 !! path f)))).

(** A path some executor may write for a job of that name. *)
Definition is_output (h : Host) (operation name p : string) : Prop :=
  (exists now, p = seq_outputPath h operation now name)
  \/ (exists now token, p = worker_outputPath h operation now token name).

(** The host accepts every write. *)
Definition accepting (h : Host) : Prop := forall p, writable h p = true.

(** No output path of the batch is the path of one of its sources. *)
Definition apart (h : Host) (operation : string) (files : list File) : Prop :=
  forall f g p,
    In f files -> In g files -> is_output h operation (originalname g) p ->
    p <> path f.

(** Whether a source exists when the batch starts, and its content. *)
Definition readable (fs0 : gmap string jsstring) (f : File) : bool :=
  match fs0 !! path f with Some _ => true | None => false end.

Definition content0 (fs0 : gmap string jsstring) (f : File) : jsstring :=
  default [] (fs0 !! path f).

(** A batch that meets no failure: every source exists when the batch
    starts, every write is accepted, and no output path is the path of a
    source. *)
Record healthy (h : Host) (fs0 : gmap string jsstring) (operation : string)
    (files : list File) : Prop := {
  sources_exist : forall f, In f files -> readable fs0 f = true;
  writes_accepted : accepting h;
  sources_apart : apart h operation files
}.

(** The sources of [files] are as they were in [fs0]. *)
Definition intact (fs0 fs1 : gmap string jsstring) (files : list File) : Prop :=
  forall f, In f files -> fs1 !! path f = fs0 !! path f.

(** [Date.now()] never steps back. *)
Definition monotone (h : Host) : Prop :=
  forall m n : nat, (m <= n)%nat -> clock h m <= clock h n.

(** A signal that resolves the promise of its task. *)
Definition resolves (sig : Signal) : bool :=
  match sig with
  | Message _ => true
  | Close code _ => code =? 0
  end.

(** The two runner scripts differ only in the signal they send and in
    the tag they log. *)
Definition script_of (on_done : list Result -> Signal) (on_throw : Signal)
    (tag : string) : Script :=
  fun h operation shift r st =>
    let '(adv, st1) := loop_step h operation shift r st in
    match adv with
    | Next r' => (Running r', None, st1)
    | LoopDone res => (Ended, Some (on_done res), st1)
    | Thrown => (Ended, Some on_throw, consoleError tag st1)
    end.

(** What a task still owes the batch. *)
Definition pending (fs0 : gmap string jsstring) (t : Task) : list (string * Z) :=
  match t with
  | Running r => map (expected fs0) (shard r)
  | Ended => []
  end.

(** A runner that has met no failure so far: its results are those of
    the files it has finished, and what it holds in flight was read from
    the current file as it was when the batch started. *)
Definition runner_ok (h : Host) (operation : string)
    (fs0 : gmap string jsstring) (all : list File) (r : Runner) : Prop :=
  incl (shard r) all
  /\ (exists finished,
        shard r = finished ++ todo r
        /\ map entry (local r) = map (expected fs0) finished)
  /\ match phase r with
     | AtRead => True
     | AtStamp content =>
         exists f rest, todo r = f :: rest /\ fs0 !! path f = Some content
     | AtWrite content outputPath =>
         exists f rest, todo r = f :: rest /\ fs0 !! path f = Some content
                        /\ is_output h operation (originalname f) outputPath
     end.

Definition task_ok (h : Host) (operation : string)
    (fs0 : gmap string jsstring) (all : list File) (t : Task) : Prop :=
  match t with Running r => runner_ok h operation fs0 all r | Ended => True end.

(** Actions a task has left, at most. *)
Definition steps_left (t : Task) : nat :=
  match t with
  | Ended => 0
  | Running r =>
      (3 * length (todo r) + 3
       - match phase r with AtRead => 0 | AtStamp _ => 1 | AtWrite _ _ => 2 end)%nat
  end.

Definition left_of (p : Pool) (j : nat) : nat :=
  from_option steps_left 0%nat (tasks p !! j).

(** A schedule that lets every one of [n] tasks act [k] times. *)
Definition round_robin (n k : nat) : list nat :=
  concat (repeat (seq 0 n) k).

(** A pool in which nothing has failed: the sources are intact, every
    running task is in good standing and still holds its shard, every
    ended task has sent the entries of its shard in shard order, what has
    arrived together with what is still owed is the batch, every signal
    so far resolves its promise, and no error was logged since the
    executor was called. *)
Definition served (fs0 : gmap string jsstring) (inbox : list Signal)
    (s : list File) (t : Task) : Prop :=
  match t with
  | Running r => shard r = s
  | Ended => exists sig, In sig inbox
                         /\ map entry (pushed sig) = map (expected fs0) s
  end.

Record pool_ok (h : Host) (operation : string) (fs0 : gmap string jsstring)
    (all : list File) (shards : list (list File)) (e0 : nat) (p : Pool)
  : Prop := {
  ok_intact : intact fs0 (fs (world p)) all;
  ok_tasks : Forall (task_ok h operation fs0 all) (tasks p);
  ok_served : Forall2 (served fs0 (arrived p)) shards (tasks p);
  ok_entries :
    map entry (flat_map pushed (arrived p)) ++ flat_map (pending fs0) (tasks p)
    ≡ₚ map (expected fs0) all;
  ok_errors : errors (log (world p)) = e0;
  ok_resolved : forallb resolves (arrived p) = true
}.

(** The pools the two executors wait for. *)
Definition thread_pool (h : Host) (files : list File) (operation : string)
    (shift : Z) (sched : list nat) (st : State) : Pool :=
  run_pool CryptoWorker.processFiles h operation shift sched
    (launch EvWorker (partition files (pool_size h files)) (dateNow h st).2).

Definition process_pool (h : Host) (files : list File) (operation : string)
    (shift : Z) (sched : list nat) (st : State) : Pool :=
  run_pool CryptoProcess.processFiles h operation shift sched
    (launch EvSpawn (partition files (pool_size h files)) (dateNow h st).2).

(** Whether [req.body.files] is an array with at least one element, and
    whether [req.body.method] names an executor. *)
Definition no_files (body : Body) : Prop :=
  match b_files body with FilesArray (_ :: _) => False | _ => True end.

Definition known_method (m : string) : Prop :=
  m = "multithreading" \/ m = "multiprocessing" \/ m = "sequential".

(** Every submitted job has its entry in the outcome, and the outcome
    has no other entry: the names of the results are the names of the
    jobs, each as often as it was submitted.  An [Outcome] has no list
    of failures, so its entries are its results. *)
Definition accounted (files : list File) (o : Outcome) : Prop :=
  map originalName (results o) ≡ₚ map originalname files.

(** ** A concrete host for the scenarios *)

(** The last segment of a path. *)
Fixpoint basename_from (s acc : string) : string :=
  match s with
  | EmptyString => acc
  | String c s' =>
      if Ascii.eqb c (Ascii.ascii_of_nat 47) then basename_from s' ""
      else basename_from s' (acc +:+ String c "")
  end.

(** A host with [n] cores that accepts every write, whose clock advances
    by one millisecond per reading, and whose [path.join] has nothing to
    normalise. *)
Definition demo_host (n : nat) : Host :=
  {| cpus := n;
     clock := fun k => 1700000000000 + Z.of_nat k;
     random := fun k => "r" +:+ pretty k;
     writable := fun _ => true;
     path_join := fun a b => a +:+ "/" +:+ b;
     path_basename := fun p => basename_from p "" |}.

Definition uploaded (name : string) : File :=
  {| originalname := name; filename := "1-" +:+ name;
     path := "uploads/1-" +:+ name; fsize := 5 |}.

(** A state in which the named uploads exist with the given content. *)
Definition demo_state (names : list string) (content : jsstring) : State :=
  {| fs := list_to_map (map (fun n => (path (uploaded n), content)) names);
     ticks := 0; draws := 0; log := [] |}.

Definition five : list string := ["a.txt"; "b.txt"; "c.txt"; "d.txt"; "e.txt"].

(** ** Vocabulary of the further properties *)


(** The shift the transform applies: [decrypt ? -shift : shift]. *)
Definition actual (shift : Z) (decrypt : bool) : Z :=
  if decrypt then - shift else shift.

(** A result of a runner that stands for a completed write: it carries
    the operation, the base name of the path that was written, and the
    length of the source as its size, which is the length of what was
    written. *)
Definition written (h : Host) (operation : string) (l : list Event)
    (r : Result) : Prop :=
  r_operation r = Some operation
  /\ exists p data,
       In (p, data) (outputs l)
       /\ processedPath r = path_basename h p
       /\ r_size r = Z.of_nat (length data).

(** What holds of a runner on any host: it works on one of the shards,
    its results are those of the files it has finished, in order, each
    one standing for a completed write, and a path it is about to write
    is an output path of its current file. *)
Definition runner_gen (h : Host) (operation : string)
    (shards : list (list File)) (l : list Event) (r : Runner) : Prop :=
  In (shard r) shards
  /\ (exists finished,
        shard r = finished ++ todo r
        /\ map originalName (local r) = map originalname finished)
  /\ Forall (written h operation l) (local r)
  /\ match phase r with
     | AtWrite _ outputPath =>
         exists f rest, todo r = f :: rest
                        /\ is_output h operation (originalname f) outputPath
     | _ => True
     end.

Definition task_gen (h : Host) (operation : string)
    (shards : list (list File)) (l : list Event) (t : Task) : Prop :=
  match t with Running r => runner_gen h operation shards l r | Ended => True end.

(** The names a task still owes the batch. *)
Definition owed (t : Task) : list string :=
  match t with Running r => map originalname (shard r) | Ended => [] end.

(** The second state comes after the first: no file has disappeared and
    the log has only grown. *)
Definition extends (st st' : State) : Prop :=
  (forall p, is_Some (fs st !! p) -> is_Some (fs st' !! p))
  /\ exists added, log st' = log st ++ added.

(** What holds of a pool on any host and under any schedule.  [dropped]
    are the shards whose runner has thrown. *)
Record pool_gen (h : Host) (operation : string)
    (on_done : list Result -> Signal) (on_throw : Signal)
    (shards : list (list File)) (st0 : State) (dropped : list (list File))
    (p : Pool) : Prop := {
  g_tasks : Forall (task_gen h operation shards (log (world p))) (tasks p);
  g_signals :
    Forall (fun sig => sig = on_throw \/ exists res, sig = on_done res) (arrived p);
  g_written :
    Forall (written h operation (log (world p))) (flat_map pushed (arrived p));
  g_dropped : Forall (fun s => In s shards) dropped;
  g_account :
    map originalName (flat_map pushed (arrived p))
    ++ flat_map owed (tasks p) ++ map originalname (concat dropped)
    ≡ₚ map originalname (concat shards);
  g_errors : errors (log (world p)) = (errors (log st0) + length dropped)%nat;
  g_dispatched :
    dispatched (log (world p)) = (dispatched (log st0) + length shards)%nat;
  g_thrown :
    length (List.filter (fun sig => negb (resolves sig)) (arrived p))
    = if resolves on_throw then 0%nat else length dropped;
  g_extends : extends st0 (world p);
  g_intact :
    forall all, apart h operation all ->
                (forall s, In s shards -> incl s all) ->
                intact (fs st0) (fs (world p)) all
}.

(** * Properties *)

(** ** The transform *)

Lemma is_letter_range c :
  is_letter c = true <-> (65 <= c <= 90) \/ (97 <= c <= 122).
Proof. unfold is_letter. rewrite orb_true_iff, !andb_true_iff, !Z.leb_le. tauto. Qed.

Lemma is_letter_offset c :
  is_letter c = true -> 0 <= offset_of c < 26.
Proof.
  rewrite is_letter_range. unfold offset_of, start_of.
  destruct (Z.leb_spec c 90); lia.
Qed.

(** Within the range where one added 26 makes the sum non-negative the
    remainder is the mathematical residue. *)
Lemma shiftChar_mod a c :
  is_letter c = true -> -26 <= a ->
  shiftChar a c = [start_of c + (offset_of c + a) mod 26].
Proof.
  intros Hc Ha. pose proof (is_letter_offset c Hc) as Ho.
  unfold shiftChar, fromCharCode. fold (start_of c).
  replace (c - start_of c + a + 26) with (offset_of c + a + 26)
    by (unfold offset_of; lia).
  rewrite Z.rem_mod_nonneg by lia.
  replace (offset_of c + a + 26) with (offset_of c + a + 1 * 26) by lia.
  rewrite Z.mod_add by lia.
  pose proof (Z.mod_pos_bound (offset_of c + a) 26 ltac:(lia)) as Hm.
  assert (Hs : start_of c = 65 \/ start_of c = 97)
    by (unfold start_of; destruct (c <=? 90); auto).
  rewrite Z.mod_small by lia.
  f_equal. lia.
Qed.


Lemma shiftChar_length a c : length (shiftChar a c) = 1%nat.
Proof. reflexivity. Qed.

Lemma replace_letters_length fn text :
  (forall c, length (fn c) = 1%nat) ->
  length (replace_letters fn text) = length text.
Proof.
  intros Hfn. unfold replace_letters.
  induction text as [|c text IH]; simpl; [done|].
  rewrite length_app, IH. destruct (is_letter c); [rewrite Hfn|]; done.
Qed.

Lemma caesarCipher_length text shift decrypt :
  length (caesarCipher text shift decrypt) = length text.
Proof. apply replace_letters_length, shiftChar_length. Qed.

Lemma caesarCipher_cons c text shift decrypt :
  caesarCipher (c :: text) shift decrypt =
  (if is_letter c then shiftChar (if decrypt then - shift else shift) c else [c])
    ++ caesarCipher text shift decrypt.
Proof. reflexivity. Qed.



Lemma caesarCipher_app a b shift decrypt :
  caesarCipher (a ++ b) shift decrypt =
  caesarCipher a shift decrypt ++ caesarCipher b shift decrypt.
Proof. unfold caesarCipher, replace_letters. apply flat_map_app. Qed.

Lemma caesarCipher_other c text shift decrypt :
  is_letter c = false ->
  caesarCipher (c :: text) shift decrypt = c :: caesarCipher text shift decrypt.
Proof. intros Hc. rewrite caesarCipher_cons, Hc. reflexivity. Qed.





(** ** Partitioning *)

Lemma ceil_div_covers (a b : nat) : (1 <= b)%nat -> (a <= ceil_div a b * b)%nat.
Proof.
  intros Hb. unfold ceil_div.
  pose proof (Nat.div_mod_eq (a + b - 1) b) as Hdm.
  pose proof (Nat.mod_upper_bound (a + b - 1) b ltac:(lia)) as Hr.
  nia.
Qed.

Lemma slice_step {A} (l : list A) (k i : nat) :
  slice l (i * k) ((i + 1) * k) = take k (drop (i * k) l).
Proof. unfold slice. f_equal. lia. Qed.

(** The loop hands out the list from position [i * filesPerWorker] on,
    provided the iterations that are left can reach its end. *)
Lemma shard_loop_concat (files : list File) (k n i : nat) :
  (length files <= (i + n) * k)%nat ->
  concat (shard_loop files k n i) = drop (i * k) files.
Proof.
  revert i. induction n as [|n IH]; intros i Hlen; simpl.
  - rewrite drop_ge; [done|]. lia.
  - rewrite slice_step.
    destruct (take k (drop (i * k) files)) as [|f rest] eqn:Htake.
    + (* break: nothing is left *)
      destruct k as [|k].
      * rewrite drop_ge; [done|]. lia.
      * destruct (drop (i * S k) files); [done|discriminate].
    + simpl. rewrite IH by lia.
      change (f :: rest ++ ?x) with ((f :: rest) ++ x). rewrite <- Htake.
      replace (S i * k)%nat with (i * k + k)%nat by lia.
      rewrite <- drop_drop. apply take_drop.
Qed.

Lemma shard_loop_nonempty (files : list File) (k n i : nat) :
  Forall (fun s => s <> []) (shard_loop files k n i).
Proof.
  revert i. induction n as [|n IH]; intros i; simpl; [constructor|].
  destruct (slice files (i * k) ((i + 1) * k)) eqn:Hs; constructor; [done|apply IH].
Qed.

Lemma shard_loop_bound (files : list File) (k n i : nat) :
  (length (shard_loop files k n i) <= n)%nat.
Proof.
  revert i. induction n as [|n IH]; intros i; simpl; [lia|].
  destruct (slice files (i * k) ((i + 1) * k)); simpl; [lia|].
  specialize (IH (S i)). lia.
Qed.

Lemma partition_concat (files : list File) (K : nat) :
  (1 <= K)%nat -> concat (partition files K) = files.
Proof.
  intros HK. unfold partition. rewrite shard_loop_concat.
  - reflexivity.
  - pose proof (ceil_div_covers (length files) K HK). lia.
Qed.

(** C6: for every job list and every worker count of at least one, the
    shards the loop produces (slices of ceil(L/K) files, the loop
    stopping at the first empty slice) concatenate, in order, to the job
    list, and their sizes add up to its length; no shard is empty and
    there are at most K of them. *)
Theorem partition_complete (files : list File) (K : nat) :
  (1 <= K)%nat ->
  concat (partition files K) = files
  /\ list_sum (map length (partition files K)) = length files
  /\ Forall (fun s => s <> []) (partition files K)
  /\ (length (partition files K) <= K)%nat.
Proof.
  intros HK. pose proof (partition_concat files K HK) as Hc.
  split; [done|]. split.
  - rewrite <- List.length_concat. by rewrite Hc.
  - split; [apply shard_loop_nonempty|apply shard_loop_bound].
Qed.

Lemma partition_complete_witness :
  (1 <= 4)%nat
  /\ map (map originalname)
       (partition (map (fun n => {| originalname := n; filename := n;
                                    path := "uploads/" +:+ n; fsize := 5 |})
                       ["a"; "b"; "c"; "d"; "e"]) 4)
     = [["a"; "b"]; ["c"; "d"]; ["e"]]
  /\ concat (partition (map (fun n => {| originalname := n; filename := n;
                                    path := "uploads/" +:+ n; fsize := 5 |})
                       ["a"; "b"; "c"; "d"; "e"]) 4)
     = map (fun n => {| originalname := n; filename := n;
                        path := "uploads/" +:+ n; fsize := 5 |})
           ["a"; "b"; "c"; "d"; "e"].
Proof.
  split; [lia|]. split; [reflexivity|].
  apply (partition_complete _ 4). lia.
Defined.

(** ** Sequential executor *)

(** What one iteration does, case by case. *)
Lemma seq_iteration_cases h operation shift res st file :
  (exists content,
      fs st !! path file = Some content
      /\ writable h (seq_outputPath h operation (clock h (ticks st))
                       (originalname file)) = true
      /\ seq_iteration h operation shift (res, st) file =
         (res ++ [{| originalName := originalname file;
                     processedPath := seq_outputPath h operation
                                        (clock h (ticks st)) (originalname file);
                     r_size := Z.of_nat (length content);
                     r_operation := None |}],
          {| fs := <[seq_outputPath h operation (clock h (ticks st))
                       (originalname file)
                     := caesarCipher content shift (is_decrypt operation)]> (fs st);
             ticks := S (ticks st); draws := draws st;
             log := log st ++
                    [EvRead (path file);
                     EvWrite (seq_outputPath h operation (clock h (ticks st))
                                (originalname file))
                             (caesarCipher content shift (is_decrypt operation))] |}))
  \/ (exists k,
      (fs st !! path file = None
       \/ writable h (seq_outputPath h operation (clock h (ticks st))
                        (originalname file)) = false)
      /\ seq_iteration h operation shift (res, st) file =
         (res,
          {| fs := fs st; ticks := (ticks st + k)%nat; draws := draws st;
             log := log st ++ [EvRead (path file);
                               EvError "Error processing file:"] |})).
Proof.
  unfold seq_iteration, readFile, writeFile, dateNow, consoleError, emit. simpl.
  destruct (fs st !! path file) as [content|] eqn:Hread.
  - destruct (writable h _) eqn:Hw; simpl.
    + left. exists content. rewrite <- app_assoc. done.
    + right. exists 1%nat. rewrite <- app_assoc, Nat.add_1_r. split; [by right|done].
  - right. exists 0%nat. rewrite <- app_assoc, Nat.add_0_r. split; [by left|done].
Qed.

Lemma errors_app l1 l2 : errors (l1 ++ l2) = (errors l1 + errors l2)%nat.
Proof. unfold errors. by rewrite List.filter_app, length_app. Qed.

Lemma dispatched_app l1 l2 :
  dispatched (l1 ++ l2) = (dispatched l1 + dispatched l2)%nat.
Proof. unfold dispatched. by rewrite List.filter_app, length_app. Qed.

Lemma outputs_app l1 l2 : outputs (l1 ++ l2) = outputs l1 ++ outputs l2.
Proof. apply omap_app. Qed.

(** With no assumption on the host: the loop only appends results, one
    per completed write and of the size of what was written, in the
    order of the jobs; a job without a result was logged as an error. *)
Lemma seq_loop_trace h operation shift files :
  forall res st res' st',
  fold_left (seq_iteration h operation shift) files (res, st) = (res', st') ->
  exists new written,
    res' = res ++ new
    /\ outputs (log st') = outputs (log st) ++ written
    /\ Forall2 (fun r o => processedPath r = o.1
                           /\ r_size r = Z.of_nat (length o.2)) new written
    /\ sublist (map originalName new) (map originalname files)
    /\ (length new + (errors (log st') - errors (log st)) = length files)%nat
    /\ (errors (log st) <= errors (log st'))%nat
    /\ dispatched (log st') = dispatched (log st)
    /\ (ticks st <= ticks st')%nat.
Proof.
  induction files as [|file files IH]; intros res st res' st' Hrun;
    cbn [fold_left] in Hrun.
  - injection Hrun as <- <-. exists [], []. rewrite !app_nil_r.
    repeat split; try done; simpl; try lia.
  - destruct (seq_iteration_cases h operation shift res st file)
      as [(content & Hread & Hw & Heq)|(k & Hfail & Heq)];
      rewrite Heq in Hrun; apply IH in Hrun;
      destruct Hrun as (new & written & -> & Hout & Hsz & Hsub & Hcount & Hle & Hdis & Ht);
      simpl in *.
    + eexists (_ :: new), (_ :: written). rewrite <- app_assoc. split; [done|].
      rewrite Hout, outputs_app, <- app_assoc. split; [done|].
      rewrite errors_app in Hcount, Hle. rewrite dispatched_app in Hdis.
      change (errors [EvRead _; EvWrite _ _]) with 0%nat in *.
      change (dispatched [EvRead _; EvWrite _ _]) with 0%nat in *.
      split.
      { constructor; [|done]. simpl. split; [done|].
        by rewrite caesarCipher_length. }
      split; [by apply sublist_skip|].
      repeat split; simpl; lia.
    + exists new, written. split; [done|].
      rewrite Hout, outputs_app, app_nil_r. split; [done|]. split; [done|].
      rewrite errors_app in Hcount, Hle. rewrite dispatched_app in Hdis.
      change (errors [EvRead _; EvError _]) with 1%nat in *.
      change (dispatched [EvRead _; EvError _]) with 0%nat in *.
      split; [by apply sublist_cons|].
      repeat split; simpl; lia.
Qed.

Lemma intact_insert fs0 fs1 all p data :
  intact fs0 fs1 all -> (forall f, In f all -> p <> path f) ->
  intact fs0 (<[p := data]> fs1) all.
Proof.
  intros Hin Hp f Hf. rewrite lookup_insert_ne; [by apply Hin|by apply Hp].
Qed.

(** On a host that accepts every write and whose outputs stay apart from
    the sources, the loop yields exactly the jobs whose source exists, in
    order, with the size and the transform of that source; every other
    job is one logged error. *)
Lemma seq_loop_steady h fs0 operation shift all files :
  accepting h -> apart h operation all -> incl files all ->
  forall res st res' st',
  intact fs0 (fs st) all ->
  fold_left (seq_iteration h operation shift) files (res, st) = (res', st') ->
  exists new,
    res' = res ++ new
    /\ map entry new = map (expected fs0) (List.filter (readable fs0) files)
    /\ intact fs0 (fs st') all
    /\ errors (log st') =
       (errors (log st)
        + length (List.filter (fun f => negb (readable fs0 f)) files))%nat
    /\ outputs (log st') =
       outputs (log st)
       ++ combine (map processedPath new)
            (map (fun f => caesarCipher (content0 fs0 f) shift (is_decrypt operation))
                 (List.filter (readable fs0) files)).
Proof.
  intros Hacc Hapart.
  induction files as [|file files IH]; intros Hincl res st res' st' Hint Hrun;
    cbn [fold_left] in Hrun.
  - injection Hrun as <- <-. exists []. rewrite !app_nil_r. simpl.
    repeat split; try done; lia.
  - assert (Hfile : In file all) by (apply Hincl; by left).
    assert (Hincl' : incl files all) by (intros x Hx; apply Hincl; by right).
    destruct (seq_iteration_cases h operation shift res st file)
      as [(content & Hread & Hw & Heq)|(k & Hfail & Heq)];
      rewrite Heq in Hrun.
    + assert (H0 : fs0 !! path file = Some content) by (by rewrite <- Hint).
      apply IH in Hrun; [|done|].
      2:{ simpl. apply intact_insert; [done|]. intros f Hf.
          apply (Hapart f file); [done|done|]. left. by eexists. }
      destruct Hrun as (new & -> & Hent & Hint' & Herr & Hout). simpl in *.
      assert (Hr : readable fs0 file = true) by (unfold readable; by rewrite H0).
      eexists (_ :: new). rewrite <- app_assoc. split; [done|].
      cbn [List.filter]. rewrite Hr. cbn [negb map].
      rewrite Hent. split.
      { f_equal. unfold entry, expected. simpl. by rewrite H0. }
      split; [done|]. rewrite Herr, errors_app.
      split; [change (errors [EvRead _; EvWrite _ _]) with 0%nat; lia|].
      rewrite Hout, outputs_app, <- app_assoc. simpl.
      unfold content0 at 2. by rewrite H0.
    + destruct Hfail as [Hnone|Hnw]; [|by rewrite Hacc in Hnw].
      assert (H0 : fs0 !! path file = None) by (by rewrite <- Hint).
      apply IH in Hrun; [|done|done].
      destruct Hrun as (new & -> & Hent & Hint' & Herr & Hout). simpl in *.
      assert (Hr : readable fs0 file = false) by (unfold readable; by rewrite H0).
      exists new. split; [done|].
      cbn [List.filter]. rewrite Hr. cbn [negb map].
      split; [done|]. split; [done|]. rewrite Herr, errors_app.
      split; [change (errors [EvRead _; EvError _]) with 1%nat;
              cbn [length]; lia|].
      by rewrite Hout, outputs_app, app_nil_r.
Qed.

(** ** Runner scripts *)

Lemma CryptoWorker_script :
  CryptoWorker.processFiles = script_of Message (Message []) "Worker error:".
Proof. reflexivity. Qed.

Lemma CryptoProcess_script :
  CryptoProcess.processFiles = script_of (Close 0) (Close 1 []) "Process error:".
Proof. reflexivity. Qed.

Section HealthyRunner.

Context (h : Host) (operation : string) (shift : Z).
Context (fs0 : gmap string jsstring) (all : list File).
Context (Hhealthy : healthy h fs0 operation all).

(** On a healthy batch a runner in good standing never throws: it either
    goes on in good standing or ends with the entries of its shard. *)
Lemma loop_step_healthy r st :
  runner_ok h operation fs0 all r -> intact fs0 (fs st) all ->
  exists adv st',
    loop_step h operation shift r st = (adv, st')
    /\ intact fs0 (fs st') all
    /\ errors (log st') = errors (log st)
    /\ dispatched (log st') = dispatched (log st)
    /\ match adv with
       | Next r' => runner_ok h operation fs0 all r' /\ shard r' = shard r
       | LoopDone res => map entry res = map (expected fs0) (shard r)
       | Thrown => False
       end.
Proof.
  destruct Hhealthy as [Hexist Hacc Hapart].
  intros (Hincl & (finished & Hsplit & Hent) & Hphase) Hint.
  unfold loop_step. destruct (todo r) as [|file rest] eqn:Htodo.
  - (* the loop has ended *)
    eexists _, _. split; [done|]. repeat split; try done.
    rewrite Hsplit, app_nil_r. done.
  - assert (Hfile : In file all).
    { apply Hincl. rewrite Hsplit. apply in_or_app. right. by left. }
    destruct (phase r) as [|content|content outputPath] eqn:Hph.
    + (* read *)
      unfold readFile. rewrite (Hint file Hfile).
      specialize (Hexist file Hfile). unfold readable in Hexist.
      destruct (fs0 !! path file) as [content|] eqn:H0; [|discriminate].
      eexists _, _. split; [done|]. simpl.
      rewrite errors_app, dispatched_app.
      repeat split; try done; try (simpl; lia).
      * by exists finished.
      * simpl. by exists file, rest.
    + (* stamp *)
      destruct Hphase as (f & rest' & Hf & H0). injection Hf as <- <-.
      eexists _, _. split; [done|]. simpl.
      repeat split; try done.
      * by exists finished.
      * simpl. exists file, rest. repeat split; try done.
        right. by eexists _, _.
    + (* write *)
      destruct Hphase as (f & rest' & Hf & H0 & Hout). injection Hf as <- <-.
      unfold writeFile. rewrite Hacc.
      eexists _, _. split; [done|]. simpl.
      rewrite errors_app, dispatched_app.
      repeat split; try done; try (simpl; lia).
      * apply intact_insert; [done|]. intros g Hg. by apply (Hapart g file).
      * exists (finished ++ [file]). rewrite <- app_assoc. split; [done|].
        simpl. rewrite !map_app, Hent. simpl. f_equal.
        unfold entry, expected. simpl. by rewrite H0.
Qed.

End HealthyRunner.

(** ** Pools on a healthy batch *)

Lemma flat_map_insert_swap {A B} (g : A -> list B) (l : list A) i t t' :
  l !! i = Some t ->
  flat_map g (<[i := t']> l) ++ g t ≡ₚ flat_map g l ++ g t'.
Proof.
  revert i. induction l as [|x l IH]; intros [|i] Hi; simplify_eq/=.
  - rewrite <- !app_assoc, (Permutation_app_comm (g t')).
    by rewrite (Permutation_app_comm (flat_map g l) (g t)), <- app_assoc.
  - rewrite <- !app_assoc. f_equiv. by apply IH.
Qed.

Lemma flat_map_insert_same {A B} (g : A -> list B) (l : list A) i t t' :
  l !! i = Some t -> g t' = g t ->
  flat_map g (<[i := t']> l) = flat_map g l.
Proof.
  revert i. induction l as [|x l IH]; intros [|i] Hi Hg; simplify_eq/=.
  - by rewrite Hg.
  - f_equal. by apply IH.
Qed.

Section HealthyPool.

Context (h : Host) (operation : string) (shift : Z).
Context (fs0 : gmap string jsstring) (all : list File).
Context (Hhealthy : healthy h fs0 operation all).
Context (on_done : list Result -> Signal) (on_throw : Signal) (tag : string).
Context (Hpushed : forall res, pushed (on_done res) = res).
Context (Hresolves : forall res, resolves (on_done res) = true).

Lemma served_insert shards (ts : list Task) inbox inbox' i r t :
  Forall2 (served fs0 inbox) shards ts ->
  ts !! i = Some (Running r) ->
  (forall sig, In sig inbox -> In sig inbox') ->
  served fs0 inbox' (shard r) t ->
  Forall2 (served fs0 inbox') shards (<[i := t]> ts).
Proof.
  intros Hall Hi Hsub Ht. apply Forall2_same_length_lookup.
  rewrite length_insert. split; [by eapply Forall2_length|].
  intros j s t' Hs Hj.
  pose proof (Forall2_lookup_l _ _ _ _ _ Hall Hs) as (t0 & Ht0 & Hserved).
  destruct (decide (i = j)) as [<-|Hne].
  - rewrite list_lookup_insert_eq in Hj by (by eapply lookup_lt_Some).
    injection Hj as <-. rewrite Hi in Ht0. injection Ht0 as <-.
    simpl in Hserved. by rewrite <- Hserved.
  - rewrite list_lookup_insert_ne in Hj by done.
    rewrite Hj in Ht0. injection Ht0 as <-.
    destruct t' as [r'|]; [done|].
    destruct Hserved as (sig & Hin & Hsig). exists sig. split; [by apply Hsub|done].
Qed.

Lemma pool_step_healthy shards e0 p i :
  pool_ok h operation fs0 all shards e0 p ->
  pool_ok h operation fs0 all shards e0
    (pool_step (script_of on_done on_throw tag) h operation shift p i).
Proof.
  intros [Hint Htasks Hserved Hent Herr Hres]. unfold pool_step.
  destruct (tasks p !! i) as [[r|]|] eqn:Hi; try by constructor.
  assert (Hr : runner_ok h operation fs0 all r).
  { rewrite Forall_forall in Htasks. apply (Htasks (Running r)).
    by eapply list_elem_of_lookup_2. }
  destruct (loop_step_healthy h operation shift fs0 all Hhealthy r (world p) Hr Hint)
    as (adv & st' & Heq & Hint' & Herr' & _ & Hadv).
  unfold script_of. rewrite Heq. destruct adv as [r'|res|]; [| |done].
  - destruct Hadv as [Hr' Hshard]. constructor; simpl.
    + done.
    + by apply Forall_insert.
    + eapply served_insert; [done|done| |done].
      intros sig Hsig. apply in_or_app. by left.
    + rewrite app_nil_r.
      rewrite (flat_map_insert_same _ _ _ (Running r)); [done|done|].
      simpl. by rewrite Hshard.
    + congruence.
    + by rewrite app_nil_r.
  - constructor; simpl.
    + done.
    + by apply Forall_insert.
    + eapply served_insert; [done|done| |].
      * intros sig Hsig. apply in_or_app. by left.
      * exists (on_done res). split; [apply in_or_app; right; by left|].
        by rewrite Hpushed.
    + rewrite flat_map_app, map_app. simpl. rewrite app_nil_r, Hpushed, Hadv.
      rewrite <- Hent, <- app_assoc. f_equiv.
      pose proof (flat_map_insert_swap (pending fs0) (tasks p) i (Running r) Ended Hi)
        as Hswap.
      simpl in Hswap. rewrite app_nil_r in Hswap. rewrite <- Hswap.
      apply Permutation_app_comm.
    + congruence.
    + rewrite forallb_app, Hres. simpl. by rewrite Hresolves.
Qed.

Lemma run_pool_healthy shards e0 sched p :
  pool_ok h operation fs0 all shards e0 p ->
  pool_ok h operation fs0 all shards e0
    (run_pool (script_of on_done on_throw tag) h operation shift sched p).
Proof.
  revert p. induction sched as [|i sched IH]; intros p Hp; [done|].
  simpl. apply IH. by apply pool_step_healthy.
Qed.

End HealthyPool.

Lemma all_ended_pending fs0 p :
  all_ended p = true -> flat_map (pending fs0) (tasks p) = [].
Proof.
  unfold all_ended. induction (tasks p) as [|[r|] l IH]; simpl; try done.
Qed.

Lemma launch_world ev shards st :
  (forall s, is_error (ev s) = false) ->
  fs (world (launch ev shards st)) = fs st
  /\ ticks (world (launch ev shards st)) = ticks st
  /\ errors (log (world (launch ev shards st))) = errors (log st).
Proof.
  intros Hev. unfold launch. simpl. revert st.
  induction shards as [|s shards IH]; intros st; simpl; [done|].
  destruct (IH (emit (ev s) st)) as (-> & -> & ->). simpl.
  rewrite errors_app. unfold errors at 2. simpl. rewrite Hev. simpl.
  repeat split; lia.
Qed.

Lemma launch_pending fs0 (shards : list (list File)) :
  flat_map (pending fs0) (map (fun s => Running (start_runner s)) shards)
  = map (expected fs0) (concat shards).
Proof.
  induction shards as [|s shards IH]; simpl; [done|].
  by rewrite map_app, IH.
Qed.

Lemma launch_healthy h operation fs0 all ev st :
  healthy h fs0 operation all -> fs st = fs0 ->
  (forall s, is_error (ev s) = false) ->
  (1 <= cpus h)%nat ->
  pool_ok h operation fs0 all (partition all (pool_size h all)) (errors (log st))
    (launch ev (partition all (pool_size h all)) st).
Proof.
  intros Hh Hfs Hev Hcpu.
  assert (Hconcat : concat (partition all (pool_size h all)) = all).
  { destruct all as [|f l].
    - unfold pool_size. simpl. by rewrite Nat.min_0_r.
    - apply partition_concat. unfold pool_size. simpl. lia. }
  destruct (launch_world ev (partition all (pool_size h all)) st Hev)
    as (Hf & _ & He).
  constructor.
  - intros f _. by rewrite Hf, Hfs.
  - simpl. apply Forall_forall. intros t Ht.
    apply list_elem_of_In, in_map_iff in Ht.
    destruct Ht as (s & <- & Hs). simpl. repeat split; simpl.
    + intros f Hf'. rewrite <- Hconcat. apply in_concat. eauto.
    + by exists [].
  - simpl. apply Forall2_fmap_r, Forall_Forall2_diag, Forall_forall.
    by intros s' Hs'.
  - simpl. by rewrite launch_pending, Hconcat.
  - done.
  - done.
Qed.

(** ** Every pool comes to an end *)

Section Termination.

Context (h : Host) (operation : string) (shift : Z).
Context (on_done : list Result -> Signal) (on_throw : Signal) (tag : string).

Lemma script_progress r st :
  (steps_left (script_of on_done on_throw tag h operation shift r st).1.1
   < steps_left (Running r))%nat.
Proof.
  unfold script_of, loop_step.
  destruct (todo r) as [|file rest] eqn:Htodo; simpl; rewrite ?Htodo.
  - destruct (phase r); simpl; lia.
  - destruct (phase r) as [|content|content outputPath] eqn:Hph; simpl.
    + destruct (fs st !! path file); simpl; rewrite ?Htodo; simpl; lia.
    + rewrite ?Htodo. simpl. lia.
    + unfold writeFile. destruct (writable h outputPath); simpl; lia.
Qed.

Lemma pool_step_length p i :
  length (tasks (pool_step (script_of on_done on_throw tag) h operation shift p i))
  = length (tasks p).
Proof.
  unfold pool_step. destruct (tasks p !! i) as [[r|]|]; try done.
  destruct (script_of _ _ _ _ _ _ _ _) as [[t sig] st']. simpl.
  apply length_insert.
Qed.

Lemma pool_step_left p i j :
  (left_of (pool_step (script_of on_done on_throw tag) h operation shift p i) j
   <= left_of p j - (if decide (i = j) then 1 else 0))%nat.
Proof.
  unfold pool_step, left_of.
  destruct (tasks p !! i) as [[r|]|] eqn:Hi.
  - pose proof (script_progress r (world p)) as Hlt.
    destruct (script_of _ _ _ _ _ _ _ _) as [[t sig] st']. simpl in *.
    destruct (decide (i = j)) as [<-|Hne].
    + rewrite Hi, list_lookup_insert_eq by (by eapply lookup_lt_Some).
      simpl in *. lia.
    + rewrite list_lookup_insert_ne by done. lia.
  - destruct (decide (i = j)) as [<-|Hne]; [rewrite Hi; simpl|]; lia.
  - destruct (decide (i = j)) as [<-|Hne]; [rewrite Hi; simpl|]; lia.
Qed.

Lemma run_pool_length sched p :
  length (tasks (run_pool (script_of on_done on_throw tag) h operation shift sched p))
  = length (tasks p).
Proof.
  unfold run_pool. revert p. induction sched as [|i sched IH]; intros p; [done|].
  cbn [fold_left]. rewrite IH. apply pool_step_length.
Qed.

Lemma run_pool_left sched p j :
  (left_of (run_pool (script_of on_done on_throw tag) h operation shift sched p) j
   <= left_of p j - count_occ Nat.eq_dec sched j)%nat.
Proof.
  unfold run_pool. revert p.
  induction sched as [|i sched IH]; intros p; [simpl; lia|].
  cbn [fold_left count_occ].
  etrans; [apply IH|]. pose proof (pool_step_left p i j) as Hstep.
  destruct (Nat.eq_dec i j), (decide (i = j)); try done; lia.
Qed.

End Termination.

Lemma count_occ_round_robin n k j :
  (j < n)%nat -> count_occ Nat.eq_dec (round_robin n k) j = k.
Proof.
  intros Hj. unfold round_robin. induction k as [|k IH]; [done|].
  simpl. rewrite count_occ_app, IH. f_equal.
  assert (Hone : forall a m, (a <= j < a + m)%nat ->
                        count_occ Nat.eq_dec (seq a m) j = 1%nat).
  { intros a m. revert a. induction m as [|m IHm]; intros a Ha; [lia|].
    simpl. destruct (Nat.eq_dec a j) as [->|Hne].
    - f_equal. apply count_occ_not_In. rewrite in_seq. lia.
    - apply IHm. lia. }
  rewrite Hone; lia.
Qed.

Lemma all_ended_left p :
  (forall j, left_of p j = 0%nat) -> all_ended p = true.
Proof.
  intros Hleft. unfold all_ended. apply forallb_forall. intros t Ht.
  apply list_elem_of_In, list_elem_of_lookup in Ht. destruct Ht as [j Hj].
  specialize (Hleft j). unfold left_of in Hleft. rewrite Hj in Hleft.
  destruct t as [r|]; [|done]. simpl in Hleft. destruct (phase r); lia.
Qed.

(** Letting every task act as often as the longest shard needs ends
    the pool. *)
Lemma round_robin_ends h operation shift on_done on_throw tag ev shards st k :
  (forall s, In s shards -> (3 * length s + 3 <= k)%nat) ->
  all_ended (run_pool (script_of on_done on_throw tag) h operation shift
               (round_robin (length shards) k) (launch ev shards st)) = true.
Proof.
  intros Hk. apply all_ended_left. intros j.
  pose proof (run_pool_left h operation shift on_done on_throw tag
                (round_robin (length shards) k) (launch ev shards st) j) as Hle.
  destruct (decide (j < length shards)%nat) as [Hj|Hj].
  - rewrite count_occ_round_robin in Hle by done.
    assert (left_of (launch ev shards st) j <= k)%nat; [|lia].
    unfold left_of, launch. simpl. rewrite list_lookup_fmap.
    destruct (shards !! j) as [s|] eqn:Hs; simpl; [|lia].
    assert (Hin : In s shards)
      by (apply list_elem_of_In; by eapply list_elem_of_lookup_2).
    specialize (Hk s Hin). lia.
  - assert (left_of (launch ev shards st) j = 0)%nat; [|lia].
    unfold left_of, launch. simpl. rewrite list_lookup_fmap.
    rewrite lookup_ge_None_2; [done|lia].
Qed.

(** ** Executors *)

Lemma processSequentially_unfold h files operation shift st :
  exists res st1,
    fold_left (seq_iteration h operation shift) files ([], (dateNow h st).2)
      = (res, st1)
    /\ processSequentially h files operation shift st
       = ({| results := res;
             processingTime := clock h (ticks st1) - clock h (ticks st);
             method := "Sequential" |}, (dateNow h st1).2).
Proof.
  unfold processSequentially. simpl.
  destruct (fold_left _ files _) as [res st1] eqn:Hfold.
  exists res, st1. split; [done|]. reflexivity.
Qed.

(** The sequential executor on a host that accepts every write and keeps
    outputs apart from sources. *)
Lemma processSequentially_steady h files operation shift st :
  accepting h -> apart h operation files ->
  let run := processSequentially h files operation shift st in
  map entry (results run.1)
    = map (expected (fs st)) (List.filter (readable (fs st)) files)
  /\ errors (log run.2) =
     (errors (log st)
      + length (List.filter (fun f => negb (readable (fs st) f)) files))%nat
  /\ outputs (log run.2) =
     outputs (log st)
     ++ combine (map processedPath (results run.1))
          (map (fun f => caesarCipher (content0 (fs st) f) shift (is_decrypt operation))
               (List.filter (readable (fs st)) files)).
Proof.
  intros Hacc Hapart run.
  destruct (processSequentially_unfold h files operation shift st)
    as (res & st1 & Hfold & Heq).
  subst run. rewrite Heq. simpl.
  apply (seq_loop_steady h (fs st) operation shift files files Hacc Hapart) in Hfold.
  - destruct Hfold as (new & -> & Hent & _ & Herr & Hout). done.
  - by intros f Hf.
  - by intros f Hf.
Qed.

Lemma filter_all {A} (f : A -> bool) (l : list A) :
  (forall x, In x l -> f x = true) -> List.filter f l = l.
Proof.
  induction l as [|x l IH]; intros Hf; simpl; [done|].
  rewrite (Hf x) by (by left). f_equal. apply IH. intros y Hy. apply Hf. by right.
Qed.

Lemma filter_none {A} (f : A -> bool) (l : list A) :
  (forall x, In x l -> f x = false) -> List.filter f l = [].
Proof.
  induction l as [|x l IH]; intros Hf; simpl; [done|].
  rewrite (Hf x) by (by left). apply IH. intros y Hy. apply Hf. by right.
Qed.

Lemma processSequentially_healthy h files operation shift st :
  healthy h (fs st) operation files ->
  let run := processSequentially h files operation shift st in
  map entry (results run.1) = map (expected (fs st)) files
  /\ errors (log run.2) = errors (log st)
  /\ outputs (log run.2) =
     outputs (log st)
     ++ combine (map processedPath (results run.1))
          (map (fun f => caesarCipher (content0 (fs st) f) shift (is_decrypt operation))
               files).
Proof.
  intros [Hexist Hacc Hapart] run.
  destruct (processSequentially_steady h files operation shift st Hacc Hapart)
    as (Hent & Herr & Hout).
  fold run in Hent, Herr, Hout.
  rewrite (filter_all (readable (fs st)) files) in Hent, Hout by done.
  rewrite filter_none in Herr.
  - simpl in Herr. split; [done|]. split; [lia|done].
  - intros f Hf. by rewrite Hexist.
Qed.

(** Clock readings only accumulate. *)
Lemma script_ticks on_done on_throw tag h operation shift r st :
  (ticks st <= ticks (script_of on_done on_throw tag h operation shift r st).2)%nat.
Proof.
  unfold script_of, loop_step.
  destruct (todo r) as [|file rest]; simpl; [lia|].
  destruct (phase r) as [|content|content outputPath]; simpl.
  - destruct (fs st !! path file); simpl; lia.
  - lia.
  - unfold writeFile. destruct (writable h outputPath); simpl; lia.
Qed.

Lemma run_pool_ticks on_done on_throw tag h operation shift sched p :
  (ticks (world p)
   <= ticks (world (run_pool (script_of on_done on_throw tag) h operation shift
                      sched p)))%nat.
Proof.
  unfold run_pool. revert p. induction sched as [|i sched IH]; intros p; [done|].
  cbn [fold_left]. etrans; [|apply IH].
  unfold pool_step. destruct (tasks p !! i) as [[r|]|]; try done.
  pose proof (script_ticks on_done on_throw tag h operation shift r (world p)) as Ht.
  destruct (script_of _ _ _ _ _ _ _ _) as [[t sig] st']. done.
Qed.

Lemma shard_loop_length (files : list File) (k n i : nat) s :
  In s (shard_loop files k n i) -> (length s <= length files)%nat.
Proof.
  revert i. induction n as [|n IH]; intros i; simpl; [done|].
  destruct (slice files (i * k) ((i + 1) * k)) as [|f l] eqn:Hs; [done|].
  intros [<-|Hin]; [|by eapply IH].
  rewrite <- Hs. unfold slice. rewrite length_take, length_drop. lia.
Qed.

Lemma processWithWorkerThreads_unfold h files operation shift sched st :
  let p := thread_pool h files operation shift sched st in
  processWithWorkerThreads h files operation shift sched st =
  if all_ended p
  then (Some {| results := flat_map pushed (arrived p);
                processingTime := clock h (ticks (world p)) - clock h (ticks st);
                method := "Worker Threads" |}, (dateNow h (world p)).2)
  else (None, world p).
Proof. reflexivity. Qed.

Lemma processWithChildProcesses_unfold h files operation shift sched st :
  let p := process_pool h files operation shift sched st in
  processWithChildProcesses h files operation shift sched st =
  match omap rejection (arrived p) with
  | message :: _ => (Some (Rejected message), world p)
  | [] =>
      if all_ended p
      then (Some (Fulfilled
                    {| results := flat_map pushed (arrived p);
                       processingTime :=
                         clock h (ticks (world p)) - clock h (ticks st);
                       method := "Child Processes" |}),
            (dateNow h (world p)).2)
      else (None, world p)
  end.
Proof. reflexivity. Qed.

Lemma resolved_no_rejection (inbox : list Signal) :
  forallb resolves inbox = true -> omap rejection inbox = [].
Proof.
  induction inbox as [|sig inbox IH]; [done|].
  cbn [forallb]. rewrite andb_true_iff. intros [Hsig Hrest].
  cbn [omap list_omap]. rewrite (IH Hrest).
  destruct sig as [res|code output]; simpl in *; [done|]. by rewrite Hsig.
Qed.

Lemma rejection_found (inbox : list Signal) code output :
  In (Close code output) inbox -> code <> 0 ->
  exists code' message rest,
    code' <> 0
    /\ message = "Process exited with code " +:+ pretty code'
    /\ omap rejection inbox = message :: rest.
Proof.
  induction inbox as [|sig inbox IH]; [done|].
  intros Hin Hcode. cbn [omap list_omap].
  destruct sig as [res|code' output']; simpl.
  - destruct Hin as [Heq|Hin]; [discriminate Heq|]. by apply IH.
  - destruct (Z.eqb_spec code' 0) as [->|Hne].
    + destruct Hin as [Heq|Hin]; [|by apply IH].
      injection Heq as <- _. done.
    + by eexists code', _, _.
Qed.

Lemma thread_pool_healthy h files operation shift sched st :
  healthy h (fs st) operation files -> (1 <= cpus h)%nat ->
  pool_ok h operation (fs st) files (partition files (pool_size h files))
    (errors (log st)) (thread_pool h files operation shift sched st).
Proof.
  intros Hh Hcpu. unfold thread_pool. rewrite CryptoWorker_script.
  apply run_pool_healthy; try done.
  by apply (launch_healthy h operation (fs st) files EvWorker (dateNow h st).2).
Qed.

Lemma process_pool_healthy h files operation shift sched st :
  healthy h (fs st) operation files -> (1 <= cpus h)%nat ->
  pool_ok h operation (fs st) files (partition files (pool_size h files))
    (errors (log st)) (process_pool h files operation shift sched st).
Proof.
  intros Hh Hcpu. unfold process_pool. rewrite CryptoProcess_script.
  apply run_pool_healthy; try done.
  by apply (launch_healthy h operation (fs st) files EvSpawn (dateNow h st).2).
Qed.

Lemma pool_ok_ended h operation fs0 all shards e0 p :
  pool_ok h operation fs0 all shards e0 p -> all_ended p = true ->
  map entry (flat_map pushed (arrived p)) ≡ₚ map (expected fs0) all.
Proof.
  intros [_ _ _ Hent _ _] Hend.
  by rewrite (all_ended_pending fs0 p Hend), app_nil_r in Hent.
Qed.

Lemma thread_pool_ticks h files operation shift sched st :
  (ticks st < ticks (world (thread_pool h files operation shift sched st)))%nat.
Proof.
  unfold thread_pool. rewrite CryptoWorker_script.
  eapply Nat.lt_le_trans; [|apply run_pool_ticks].
  destruct (launch_world EvWorker (partition files (pool_size h files))
              (dateNow h st).2) as (_ & -> & _); [done|]. simpl. lia.
Qed.

Lemma process_pool_ticks h files operation shift sched st :
  (ticks st < ticks (world (process_pool h files operation shift sched st)))%nat.
Proof.
  unfold process_pool. rewrite CryptoProcess_script.
  eapply Nat.lt_le_trans; [|apply run_pool_ticks].
  destruct (launch_world EvSpawn (partition files (pool_size h files))
              (dateNow h st).2) as (_ & -> & _); [done|]. simpl. lia.
Qed.

(** The thread-pool executor on a healthy batch. *)
Lemma processWithWorkerThreads_healthy h files operation shift sched st o st' :
  healthy h (fs st) operation files -> (1 <= cpus h)%nat ->
  processWithWorkerThreads h files operation shift sched st = (Some o, st') ->
  map entry (results o) ≡ₚ map (expected (fs st)) files
  /\ errors (log st') = errors (log st)
  /\ (monotone h -> 0 <= processingTime o).
Proof.
  intros Hh Hcpu. rewrite processWithWorkerThreads_unfold. cbv zeta.
  pose proof (thread_pool_healthy h files operation shift sched st Hh Hcpu) as Hok.
  pose proof (thread_pool_ticks h files operation shift sched st) as Ht.
  destruct (all_ended _) eqn:Hend; [|done].
  intros [= <- <-]. simpl. split; [by eapply pool_ok_ended|].
  split; [by destruct Hok|].
  intros Hmono. specialize (Hmono (ticks st) (ticks (world
    (thread_pool h files operation shift sched st)))). lia.
Qed.

(** The process-pool executor on a healthy batch. *)
Lemma processWithChildProcesses_healthy h files operation shift sched st c st' :
  healthy h (fs st) operation files -> (1 <= cpus h)%nat ->
  processWithChildProcesses h files operation shift sched st = (Some c, st') ->
  exists o, c = Fulfilled o
    /\ map entry (results o) ≡ₚ map (expected (fs st)) files
    /\ errors (log st') = errors (log st)
    /\ (monotone h -> 0 <= processingTime o).
Proof.
  intros Hh Hcpu. rewrite processWithChildProcesses_unfold. cbv zeta.
  pose proof (process_pool_healthy h files operation shift sched st Hh Hcpu) as Hok.
  pose proof (process_pool_ticks h files operation shift sched st) as Ht.
  rewrite (resolved_no_rejection _ (ok_resolved _ _ _ _ _ _ _ Hok)).
  destruct (all_ended _) eqn:Hend; [|done].
  intros [= <- <-]. eexists. split; [done|]. simpl.
  split; [by eapply pool_ok_ended|]. split; [by destruct Hok|].
  intros Hmono. specialize (Hmono (ticks st) (ticks (world
    (process_pool h files operation shift sched st)))). lia.
Qed.

(** Both pool executors return once every task has acted often enough. *)
Lemma thread_pool_ends h files operation shift st k :
  (3 * length files + 3 <= k)%nat ->
  all_ended (thread_pool h files operation shift
               (round_robin (length (partition files (pool_size h files))) k) st)
  = true.
Proof.
  intros Hk. unfold thread_pool. rewrite CryptoWorker_script.
  apply round_robin_ends. intros s Hs.
  apply shard_loop_length in Hs. lia.
Qed.

Lemma process_pool_ends h files operation shift st k :
  (3 * length files + 3 <= k)%nat ->
  all_ended (process_pool h files operation shift
               (round_robin (length (partition files (pool_size h files))) k) st)
  = true.
Proof.
  intros Hk. unfold process_pool. rewrite CryptoProcess_script.
  apply round_robin_ends. intros s Hs.
  apply shard_loop_length in Hs. lia.
Qed.

(** ** The concrete host *)

Lemma demo_state_lookup names content name :
  In name names ->
  fs (demo_state names content) !! path (uploaded name) = Some content.
Proof.
  unfold demo_state. cbn [fs]. induction names as [|n names IH]; [done|].
  intros Hin. cbn [map]. rewrite list_to_map_cons, lookup_insert.
  case_decide as Hk; [done|]. apply IH.
  destruct Hin as [->|Hin]; [done|done].
Qed.

Lemma demo_apart n operation names :
  apart (demo_host n) operation (map uploaded names).
Proof.
  intros f g p Hf Hg Hout Heq. apply in_map_iff in Hf as (name & <- & _).
  destruct Hout as [[now ->]|(now & token & ->)];
    unfold seq_outputPath, worker_outputPath in Heq;
    cbn [path_join demo_host uploaded path] in Heq;
    discriminate Heq.
Qed.

Lemma demo_healthy n operation names content :
  healthy (demo_host n) (fs (demo_state names content)) operation
    (map uploaded names).
Proof.
  constructor.
  - intros f Hf. apply in_map_iff in Hf as (name & <- & Hname).
    unfold readable. by rewrite demo_state_lookup.
  - by intros p.
  - apply demo_apart.
Qed.

Lemma demo_monotone n : monotone (demo_host n).
Proof. intros a b Hab. simpl. lia. Qed.

(** * The properties of the specification *)

Lemma Forall2_In_left {A B} (R : A -> B -> Prop) l k a :
  Forall2 R l k -> In a l -> exists b, In b k /\ R a b.
Proof.
  induction 1 as [|x y l k Hxy _ IH]; [done|].
  intros [<-|Hin].
  - exists y. split; [by left|done].
  - destruct (IH Hin) as (b & Hb & Hab). exists b. split; [by right|done].
Qed.

(** C10: for every input string, shift and direction [caesarCipher]
    returns a string of the length of its input (a single code unit
    becomes a single code unit, and one outside a-z, A-Z is unchanged);
    and every result of the sequential executor carries as [size] the
    length of the content that was written at its [processedPath]. *)
Theorem size_is_length_of_written_output :
  (forall (text : jsstring) shift decrypt,
      length (caesarCipher text shift decrypt) = length text)
  /\ (forall (c : Z) shift decrypt,
        length (caesarCipher [c] shift decrypt) = 1%nat
        /\ (is_letter c = false -> caesarCipher [c] shift decrypt = [c]))
  /\ (forall h files operation shift st r,
        In r (results (processSequentially h files operation shift st).1) ->
        exists data,
          In (processedPath r, data)
             (outputs (log (processSequentially h files operation shift st).2))
          /\ r_size r = Z.of_nat (length data)).
Proof.
  split; [apply caesarCipher_length|]. split.
  - intros c shift decrypt. split; [apply caesarCipher_length|].
    intros Hc. by rewrite caesarCipher_other.
  - intros h files operation shift st r.
    destruct (processSequentially_unfold h files operation shift st)
      as (res & st1 & Hfold & ->). simpl.
    apply seq_loop_trace in Hfold.
    destruct Hfold as (new & written & -> & Hout & Hsz & _). simpl.
    intros Hr. destruct (Forall2_In_left _ _ _ _ Hsz Hr) as ([p data] & Hin & Hp & Hs).
    simpl in *. exists data. rewrite Hout, Hp. split; [|done].
    apply in_or_app. by right.
Qed.



(** C8: a request without files (no array, or an empty one) and a request
    whose method is none of the three names are answered with status 400
    at once: the state of the host is returned as it was, so no clock was
    read, nothing was partitioned, and no worker or child was created.
    The check for files comes first. *)
Theorem rejected_before_partitioning h sched (body : Body) st :
  no_files body \/ ~ known_method (b_method body) ->
  exists message,
    process_route h sched body st = (Some (Bad400 message), st)
    /\ (no_files body -> message = "No files provided")
    /\ (~ no_files body -> message = "Invalid processing method").
Proof.
  unfold process_route, no_files, known_method.
  intros Hrej. destruct (b_files body) as [| |[|f fl]];
    try (eexists; split; [reflexivity|]; split; [done|]; intros Hn; by destruct Hn).
  destruct Hrej as [[]|Hm].
  destruct (String.eqb_spec (b_method body) "multithreading") as [Heq|_];
    [exfalso; apply Hm; rewrite Heq; auto|].
  destruct (String.eqb_spec (b_method body) "multiprocessing") as [Heq|_];
    [exfalso; apply Hm; rewrite Heq; auto|].
  destruct (String.eqb_spec (b_method body) "sequential") as [Heq|_];
    [exfalso; apply Hm; rewrite Heq; auto|].
  eexists. split; [reflexivity|]. split; [intros []|done].
Qed.

Lemma rejected_before_partitioning_witness :
  (exists message,
     process_route (demo_host 4) (round_robin 4 20)
       {| b_files := FilesArray []; b_operation := "encrypt";
          b_method := "sequential"; b_shift := None |}
       (demo_state five (js "Hello"))
     = (Some (Bad400 message), demo_state five (js "Hello")))
  /\ (exists message,
     process_route (demo_host 4) (round_robin 4 20)
       {| b_files := FilesArray (map uploaded five); b_operation := "encrypt";
          b_method := "threadpool"; b_shift := Some 3 |}
       (demo_state five (js "Hello"))
     = (Some (Bad400 message), demo_state five (js "Hello"))).
Proof.
  split.
  - destruct (rejected_before_partitioning (demo_host 4) (round_robin 4 20)
        {| b_files := FilesArray []; b_operation := "encrypt";
           b_method := "sequential"; b_shift := None |}
        (demo_state five (js "Hello"))) as (m & Hm & _).
    + left. exact I.
    + by exists m.
  - destruct (rejected_before_partitioning (demo_host 4) (round_robin 4 20)
        {| b_files := FilesArray (map uploaded five); b_operation := "encrypt";
           b_method := "threadpool"; b_shift := Some 3 |}
        (demo_state five (js "Hello"))) as (m & Hm & _).
    + right. intros [H|[H|H]]; discriminate H.
    + by exists m.
Defined.

Lemma entries_names (rs : list Result) fs0 (files : list File) :
  map entry rs ≡ₚ map (expected fs0) files ->
  map originalName rs ≡ₚ map originalname files.
Proof.
  intros Hperm. apply (Permutation_map fst) in Hperm.
  rewrite !map_map in Hperm. exact Hperm.
Qed.




(** C3, as stated, fails: with one core and two jobs of which the second
    cannot be read, the sequential executor returns the result of the
    first job while the thread pool returns no result at all. *)
Lemma strategies_differ_on_failure :
  ~ (forall h (files : list File) operation shift sched st o,
       (processWithWorkerThreads h files operation shift sched st).1 = Some o ->
       map entry (results o)
       ≡ₚ map entry (results (processSequentially h files operation shift st).1)).
Proof.
  intros H.
  specialize (H (demo_host 1) (map uploaded ["a.txt"; "b.txt"]) "encrypt" 3
                (round_robin 1 9) (demo_state ["a.txt"] (js "Hello"))
                {| results := []; processingTime := 2; method := "Worker Threads" |}).
  assert (Hrun : (processWithWorkerThreads (demo_host 1)
                    (map uploaded ["a.txt"; "b.txt"]) "encrypt" 3
                    (round_robin 1 9) (demo_state ["a.txt"] (js "Hello"))).1
                 = Some {| results := []; processingTime := 2;
                           method := "Worker Threads" |})
    by (vm_compute; reflexivity).
  specialize (H Hrun). vm_compute in H.
  by eapply Permutation_nil_cons.
Qed.

(** C3 (amended): on a healthy batch and a host with at least one core,
    whatever the schedules, the results of the thread pool and of the
    process pool have the same names and sizes, each as often, as the
    results of the sequential executor, and the process pool fulfils its
    promise. *)
Theorem strategies_agree_on_healthy_batch
    h (files : list File) operation shift st sched1 sched2 o1 c2 st1 st2 :
  healthy h (fs st) operation files -> (1 <= cpus h)%nat ->
  processWithWorkerThreads h files operation shift sched1 st = (Some o1, st1) ->
  processWithChildProcesses h files operation shift sched2 st = (Some c2, st2) ->
  exists o2,
    c2 = Fulfilled o2
    /\ map entry (results o1)
       ≡ₚ map entry (results (processSequentially h files operation shift st).1)
    /\ map entry (results o2)
       ≡ₚ map entry (results (processSequentially h files operation shift st).1).
Proof.
  intros Hh Hcpu Hrun1 Hrun2.
  destruct (processSequentially_healthy h files operation shift st Hh) as (Hent & _).
  destruct (processWithWorkerThreads_healthy _ _ _ _ _ _ _ _ Hh Hcpu Hrun1) as (Hent1 & _).
  destruct (processWithChildProcesses_healthy _ _ _ _ _ _ _ _ Hh Hcpu Hrun2)
    as (o2 & -> & Hent2 & _).
  exists o2. rewrite Hent. done.
Qed.

Lemma strategies_agree_on_healthy_batch_witness :
  exists o1 o2 st1 st2,
    processWithWorkerThreads (demo_host 4) (map uploaded five) "encrypt" 3
      (round_robin 3 9) (demo_state five (js "Hello")) = (Some o1, st1)
    /\ processWithChildProcesses (demo_host 4) (map uploaded five) "encrypt" 3
         (round_robin 3 9) (demo_state five (js "Hello")) = (Some (Fulfilled o2), st2)
    /\ map entry (results o1)
       ≡ₚ map entry (results (processSequentially (demo_host 4) (map uploaded five)
                                "encrypt" 3 (demo_state five (js "Hello"))).1)
    /\ map entry (results o2)
       ≡ₚ map entry (results (processSequentially (demo_host 4) (map uploaded five)
                                "encrypt" 3 (demo_state five (js "Hello"))).1).
Proof.
  destruct (processWithWorkerThreads (demo_host 4) (map uploaded five) "encrypt" 3
              (round_robin 3 9) (demo_state five (js "Hello")))
    as [[o1|] st1] eqn:H1; [|vm_compute in H1; discriminate H1].
  destruct (processWithChildProcesses (demo_host 4) (map uploaded five) "encrypt" 3
              (round_robin 3 9) (demo_state five (js "Hello")))
    as [[c2|] st2] eqn:H2; [|vm_compute in H2; discriminate H2].
  destruct (strategies_agree_on_healthy_batch (demo_host 4) (map uploaded five)
              "encrypt" 3 (demo_state five (js "Hello"))
              (round_robin 3 9) (round_robin 3 9) o1 c2 st1 st2
              (demo_healthy 4 "encrypt" five (js "Hello")) (le_S _ _ (le_S _ _ (le_S _ _ (le_n 1))))
              H1 H2)
    as (o2 & -> & Ha & Hb).
  exists o1, o2, st1, st2.
  split; [reflexivity|]. split; [reflexivity|]. split; [exact Ha|exact Hb].
Defined.





(** C5, as stated, fails: with four cores the five files are cut into
    slices of two, so the shards have sizes 2, 2 and 1, and the fourth
    worker is never created. *)
Lemma five_files_on_four_cores_make_three_shards :
  ~ (map length (partition (map uploaded five)
                   (pool_size (demo_host 4) (map uploaded five)))
     = [2; 1; 1; 1]%nat).
Proof. vm_compute. discriminate. Qed.

(** C5 (amended): for five files on a host with four cores the worker
    count is 4, each slice holds two files, and three workers are created
    with shards of sizes 2, 2 and 1; on a healthy batch the thread pool
    returns, once its tasks have acted often enough, five results and
    logs no error, and the processing time is not negative when the
    clock does not step back. *)
Theorem scenario_threadpool_five h (files : list File) operation shift st :
  length files = 5%nat -> cpus h = 4%nat ->
  healthy h (fs st) operation files -> monotone h ->
  pool_size h files = 4%nat
  /\ ceil_div (length files) (pool_size h files) = 2%nat
  /\ map length (partition files (pool_size h files)) = [2; 2; 1]%nat
  /\ (forall sched,
        length (tasks (thread_pool h files operation shift sched st)) = 3%nat)
  /\ (forall sched o st',
        processWithWorkerThreads h files operation shift sched st = (Some o, st') ->
        length (results o) = 5%nat
        /\ accounted files o
        /\ errors (log st') = errors (log st)
        /\ 0 <= processingTime o)
  /\ (forall k, (18 <= k)%nat ->
        is_Some (processWithWorkerThreads h files operation shift
                   (round_robin 3 k) st).1).
Proof.
  intros Hlen Hcpu Hh Hmono.
  assert (Hsize : pool_size h files = 4%nat) by (unfold pool_size; lia).
  assert (Hshards : map length (partition files 4) = [2; 2; 1]%nat).
  { destruct files as [|f1 [|f2 [|f3 [|f4 [|f5 [|f6 l]]]]]]; try discriminate Hlen.
    reflexivity. }
  rewrite Hsize, Hlen. split; [done|]. split; [done|]. split; [done|]. split.
  { intros sched. unfold thread_pool. rewrite CryptoWorker_script, run_pool_length.
    unfold launch. cbn [tasks]. rewrite length_map, Hsize.
    by rewrite <- (length_map length), Hshards. }
  split.
  - intros sched o st' Hrun.
    destruct (processWithWorkerThreads_healthy _ _ _ _ _ _ _ _ Hh ltac:(lia) Hrun)
      as (Hent & Herr & Htime).
    split. { rewrite <- (length_map entry), Hent, length_map. done. }
    split; [by eapply entries_names|]. split; [done|by apply Htime].
  - intros k Hk. rewrite processWithWorkerThreads_unfold. cbv zeta.
    pose proof (thread_pool_ends h files operation shift st k ltac:(lia)) as Hend.
    rewrite Hsize in Hend.
    rewrite <- (length_map length), Hshards in Hend. cbn [length] in Hend.
    rewrite Hend. by eexists.
Qed.

Lemma scenario_threadpool_five_witness :
  map length (partition (map uploaded five)
                (pool_size (demo_host 4) (map uploaded five)))
    = [2; 2; 1]%nat
  /\ is_Some (processWithWorkerThreads (demo_host 4) (map uploaded five) "encrypt" 3
                (round_robin 3 18) (demo_state five (js "Hello"))).1.
Proof.
  destruct (scenario_threadpool_five (demo_host 4) (map uploaded five) "encrypt" 3
              (demo_state five (js "Hello")) eq_refl eq_refl
              (demo_healthy 4 "encrypt" five (js "Hello")) (demo_monotone 4))
    as (_ & _ & Hshards & _ & _ & Hends).
  split; [exact Hshards|]. apply Hends. apply le_n.
Defined.

(** C7, as stated, fails: with two cores and two jobs of which the
    second cannot be read, the second child exits with status 1 and the
    executor returns no outcome at all. *)
Lemma child_exit_aborts_the_batch :
  ~ (forall h (files : list File) operation shift sched st,
       (exists code output,
           In (Close code output)
              (arrived (process_pool h files operation shift sched st))
           /\ code <> 0) ->
       exists o,
         (processWithChildProcesses h files operation shift sched st).1
         = Some (Fulfilled o)).
Proof.
  intros H.
  destruct (H (demo_host 2) (map uploaded ["a.txt"; "b.txt"]) "encrypt" 3
              (round_robin 2 9) (demo_state ["a.txt"] (js "Hello"))) as [o Ho].
  - exists 1, []. split; [vm_compute; by left|done].
  - vm_compute in Ho. discriminate Ho.
Qed.

(** C7 (amended): when a child process of the process pool exits with a
    non-zero status the executor rejects with the error of the first such
    child: it returns no outcome, whatever the other children delivered,
    and the /process route answers with status 500 and the message Error
    processing files. *)
Theorem child_exit_rejects_the_batch
    h (files : list File) operation shift sched st code output :
  In (Close code output) (arrived (process_pool h files operation shift sched st)) ->
  code <> 0 ->
  (exists code',
     code' <> 0
     /\ processWithChildProcesses h files operation shift sched st
        = (Some (Rejected ("Process exited with code " +:+ pretty code')),
           world (process_pool h files operation shift sched st)))
  /\ (files <> [] ->
      process_route h sched
        {| b_files := FilesArray files; b_operation := operation;
           b_method := "multiprocessing"; b_shift := Some shift |} st
      = (Some (Err500 "Error processing files"),
         consoleError "Processing error:"
           (world (process_pool h files operation shift sched st)))).
Proof.
  intros Hin Hcode.
  destruct (rejection_found _ _ _ Hin Hcode) as (code' & message & rest & Hne & -> & Hfirst).
  assert (Hrej : processWithChildProcesses h files operation shift sched st
                 = (Some (Rejected ("Process exited with code " +:+ pretty code')),
                    world (process_pool h files operation shift sched st))).
  { rewrite processWithChildProcesses_unfold. cbv zeta. by rewrite Hfirst. }
  split; [by exists code'|]. intros Hfiles. unfold process_route.
  destruct files as [|f fl]; [done|]. cbn [b_files b_method b_shift b_operation].
  change (String.eqb "multiprocessing" "multithreading") with false.
  change (String.eqb "multiprocessing" "multiprocessing") with true.
  cbv iota. cbn [default from_option]. unfold id. by rewrite Hrej.
Qed.

Lemma child_exit_rejects_the_batch_witness :
  In (Close 1 [])
     (arrived (process_pool (demo_host 2) (map uploaded ["a.txt"; "b.txt"])
                 "encrypt" 3 (round_robin 2 9) (demo_state ["a.txt"] (js "Hello"))))
  /\ exists code,
      code <> 0
      /\ (processWithChildProcesses (demo_host 2) (map uploaded ["a.txt"; "b.txt"])
            "encrypt" 3 (round_robin 2 9) (demo_state ["a.txt"] (js "Hello"))).1
         = Some (Rejected ("Process exited with code " +:+ pretty code)).
Proof.
  assert (Hin : In (Close 1 [])
     (arrived (process_pool (demo_host 2) (map uploaded ["a.txt"; "b.txt"])
                 "encrypt" 3 (round_robin 2 9) (demo_state ["a.txt"] (js "Hello")))))
    by (vm_compute; left; reflexivity).
  split; [exact Hin|].
  destruct (child_exit_rejects_the_batch (demo_host 2)
              (map uploaded ["a.txt"; "b.txt"]) "encrypt" 3 (round_robin 2 9)
              (demo_state ["a.txt"] (js "Hello")) 1 [] Hin)
    as [(code & Hcode & Hrej) _].
  - discriminate.
  - exists code. split; [exact Hcode|]. rewrite Hrej. reflexivity.
Defined.

(** * Further properties of the code *)

(** ** The transform as a rotation *)















(** ** Shifts beyond one alphabet *)

Lemma rem_of_nonpos a : a <= 0 -> Z.rem a 26 = - ((- a) mod 26).
Proof.
  intros Ha. rewrite <- (Z.opp_involutive a) at 1.
  rewrite Z.rem_opp_l by lia. by rewrite Z.rem_mod_nonneg by lia.
Qed.

(** When the added 26 does not make the sum positive, the letter moves
    below the base of its alphabet (or onto it). *)
Lemma shiftChar_below a c :
  is_letter c = true -> offset_of c + a + 26 <= 0 ->
  shiftChar a c = [start_of c - (- (offset_of c + a + 26)) mod 26].
Proof.
  intros Hc Ha. unfold shiftChar, fromCharCode. fold (start_of c).
  replace (c - start_of c + a + 26) with (offset_of c + a + 26)
    by (unfold offset_of; lia).
  rewrite rem_of_nonpos by done.
  pose proof (Z.mod_pos_bound (- (offset_of c + a + 26)) 26 ltac:(lia)) as Hm.
  assert (Hs : start_of c = 65 \/ start_of c = 97)
    by (unfold start_of; destruct (c <=? 90); auto).
  rewrite Z.mod_small by lia. f_equal. lia.
Qed.

Lemma caesarCipher_single c shift decrypt :
  caesarCipher [c] shift decrypt
  = if is_letter c then shiftChar (actual shift decrypt) c else [c].
Proof.
  rewrite caesarCipher_cons. fold (actual shift decrypt).
  change (caesarCipher [] shift decrypt) with (@nil Z). by rewrite app_nil_r.
Qed.

Lemma upper_letter k :
  0 <= k < 26 ->
  is_letter (65 + k) = true /\ start_of (65 + k) = 65 /\ offset_of (65 + k) = k.
Proof.
  intros Hk. assert (Hs : start_of (65 + k) = 65).
  { unfold start_of. destruct (Z.leb_spec (65 + k) 90); lia. }
  split; [apply is_letter_range; lia|]. split; [done|].
  unfold offset_of. rewrite Hs. lia.
Qed.

Lemma below_upper_not_letter m : 0 < m <= 26 -> is_letter (65 - m) = false.
Proof.
  intros Hm. destruct (is_letter (65 - m)) eqn:Hl; [|done].
  apply is_letter_range in Hl. lia.
Qed.

(** X5: the range of the round trip is exact: for every integer shift
    below -26 or above 26 there is a letter that encrypting and then
    decrypting with that shift does not give back. *)
Theorem round_trip_fails_outside_range (s : Z) :
  s < -26 \/ 26 < s ->
  exists c, is_letter c = true
            /\ caesarCipher (caesarCipher [c] s false) s true <> [c].
Proof.
  intros [Hlow|Hhigh].
  - (* the encryption already leaves the alphabet *)
    destruct (Z.eq_dec ((- (s + 26)) mod 26) 0) as [Hz|Hnz].
    + destruct (upper_letter 1 ltac:(lia)) as (Hl & Hs & Ho). exists (65 + 1).
      split; [done|]. rewrite (caesarCipher_single (65 + 1)), Hl. simpl actual.
      rewrite shiftChar_below by (done || lia). rewrite Hs, Ho.
      assert (Hm : (- (1 + s + 26)) mod 26 = 25).
      { revert Hz. Z.div_mod_to_equations. lia. }
      rewrite Hm. rewrite caesarCipher_single.
      rewrite (below_upper_not_letter 25) by lia. intros [= H]. 
    + destruct (upper_letter 0 ltac:(lia)) as (Hl & Hs & Ho). exists (65 + 0).
      split; [done|]. rewrite (caesarCipher_single (65 + 0)), Hl. simpl actual.
      rewrite shiftChar_below by (done || lia). rewrite Hs, Ho.
      pose proof (Z.mod_pos_bound (- (0 + s + 26)) 26 ltac:(lia)) as Hb.
      replace (0 + s + 26) with (s + 26) in * by lia.
      rewrite caesarCipher_single.
      rewrite below_upper_not_letter by lia. intros [= H]. lia.
  - (* the encryption is a rotation, the decryption leaves the alphabet *)
    destruct (Z_lt_le_dec 51 s) as [Hfar|Hnear].
    + destruct (upper_letter 1 ltac:(lia)) as (Hl & Hs & Ho). exists (65 + 1).
      split; [done|]. rewrite (caesarCipher_single (65 + 1)), Hl. simpl actual.
      rewrite shiftChar_mod by (done || lia). rewrite Hs, Ho.
      pose proof (Z.mod_pos_bound (1 + s) 26 ltac:(lia)) as Hb.
      destruct (upper_letter ((1 + s) mod 26) Hb) as (Hl' & Hs' & Ho').
      rewrite caesarCipher_single, Hl'. simpl actual.
      rewrite shiftChar_below by (done || lia). rewrite Hs', Ho'.
      pose proof (Z.mod_pos_bound (- ((1 + s) mod 26 + - s + 26)) 26 ltac:(lia)).
      intros [= H']. lia.
    + destruct (upper_letter (52 - s) ltac:(lia)) as (Hl & Hs & Ho).
      exists (65 + (52 - s)).
      split; [done|]. rewrite (caesarCipher_single (65 + (52 - s))), Hl. simpl actual.
      rewrite shiftChar_mod by (done || lia). rewrite Hs, Ho.
      replace (52 - s + s) with (0 + 2 * 26) by lia. rewrite Z.mod_add by lia.
      change (0 mod 26) with 0.
      destruct (upper_letter 0 ltac:(lia)) as (Hl' & Hs' & Ho').
      rewrite caesarCipher_single, Hl'. simpl actual.
      rewrite shiftChar_below by (done || lia). rewrite Hs', Ho'.
      pose proof (Z.mod_pos_bound (- (0 + - s + 26)) 26 ltac:(lia)).
      intros [= H']. lia.
Qed.

Lemma round_trip_fails_outside_range_witness :
  (-30 < -26 \/ 26 < -30)
  /\ exists c, is_letter c = true
               /\ caesarCipher (caesarCipher [c] (-30) false) (-30) true <> [c].
Proof.
  split; [lia|]. apply (round_trip_fails_outside_range (-30)). lia.
Defined.

(** ** The shape of the shards *)

Lemma shard_loop_lookup (files : list File) (k n i j : nat) s :
  shard_loop files k n i !! j = Some s ->
  s = take k (drop ((i + j) * k) files) /\ s <> [].
Proof.
  revert i j. induction n as [|n IH]; intros i j; simpl; [done|].
  rewrite slice_step.
  destruct (take k (drop (i * k) files)) as [|f l] eqn:Hs; [done|].
  destruct j as [|j]; simpl.
  - intros [= <-]. by rewrite Nat.add_0_r, Hs.
  - intros Hj. apply IH in Hj. by replace (i + S j)%nat with (S i + j)%nat by lia.
Qed.

(** X6: shard number j is the slice of ceil(L/K) files that starts at
    position j * ceil(L/K); it is never empty, and every shard that has a
    successor is full. *)
Theorem shards_are_full_slices (files : list File) (K j : nat) s :
  partition files K !! j = Some s ->
  s = slice files (j * ceil_div (length files) K)
                  ((j + 1) * ceil_div (length files) K)
  /\ (1 <= length s <= ceil_div (length files) K)%nat
  /\ (is_Some (partition files K !! S j) ->
      length s = ceil_div (length files) K).
Proof.
  unfold partition. set (k := ceil_div (length files) K). intros Hj.
  destruct (shard_loop_lookup _ _ _ _ _ _ Hj) as [Hs Hne]. simpl in Hs.
  split; [by rewrite slice_step|]. split.
  - split; [destruct s; [done|simpl; lia]|].
    rewrite Hs, length_take. lia.
  - intros [s' Hj'].
    destruct (shard_loop_lookup _ _ _ _ _ _ Hj') as [Hs' Hne']. simpl in Hs'.
    assert (Hlen : (0 < length s')%nat) by (destruct s'; [done|simpl; lia]).
    rewrite Hs', length_take, length_drop in Hlen.
    rewrite Hs, length_take, length_drop. lia.
Qed.

Lemma shards_are_full_slices_witness :
  partition (map uploaded five) 4 !! 1%nat
    = Some (map uploaded ["c.txt"; "d.txt"])
  /\ length (map uploaded ["c.txt"; "d.txt"]) = ceil_div (length (map uploaded five)) 4.
Proof.
  split; [reflexivity|].
  apply (shards_are_full_slices (map uploaded five) 4 1
           (map uploaded ["c.txt"; "d.txt"]) eq_refl).
  by eexists.
Defined.

Lemma shard_loop_singletons (files : list File) (n i : nat) :
  (length files <= i + n)%nat ->
  shard_loop files 1 n i = map (fun f => [f]) (drop i files).
Proof.
  revert i. induction n as [|n IH]; intros i Hn; simpl.
  - rewrite drop_ge by lia. done.
  - rewrite slice_step, Nat.mul_1_r.
    destruct (drop i files) as [|f l] eqn:Hd; [done|].
    simpl. rewrite take_0. f_equal. rewrite IH by lia.
    f_equal. replace (S i) with (i + 1)%nat by lia.
    by rewrite <- drop_drop, Hd.
Qed.

(** X7: on a host with at least as many cores as there are files, every
    file gets a shard of its own, in the order of the files. *)
Theorem one_shard_per_file h (files : list File) :
  (length files <= cpus h)%nat ->
  pool_size h files = length files
  /\ partition files (pool_size h files) = map (fun f => [f]) files.
Proof.
  intros Hc. assert (Hp : pool_size h files = length files)
    by (unfold pool_size; lia).
  split; [done|]. rewrite Hp. unfold partition.
  destruct files as [|f l]; [done|].
  assert (Hk : ceil_div (length (f :: l)) (length (f :: l)) = 1%nat).
  { unfold ceil_div. simpl length.
    replace (S (length l) + S (length l) - 1)%nat
      with (length l + 1 * S (length l))%nat by lia.
    rewrite Nat.div_add by lia. rewrite Nat.div_small by lia. done. }
  rewrite Hk, shard_loop_singletons by lia. done.
Qed.

Lemma one_shard_per_file_witness :
  (length (map uploaded five) <= cpus (demo_host 8))%nat
  /\ partition (map uploaded five) (pool_size (demo_host 8) (map uploaded five))
     = map (fun f => [f]) (map uploaded five).
Proof.
  split; [simpl; lia|].
  apply (one_shard_per_file (demo_host 8) (map uploaded five)). simpl. lia.
Defined.

(** ** A host that reports no core *)

Lemma run_pool_no_task script h operation shift sched st :
  run_pool script h operation shift sched
    {| tasks := []; arrived := []; world := st |}
  = {| tasks := []; arrived := []; world := st |}.
Proof.
  unfold run_pool. induction sched as [|i sched IH]; [done|].
  cbn [fold_left]. unfold pool_step at 2. by cbn [tasks lookup list_lookup].
Qed.

(** X8: when [os.cpus()] is empty both pools create no worker at all:
    whatever the batch and the schedule they return an outcome without
    results, having read and written nothing and logged nothing. *)
Theorem no_core_no_result h (files : list File) operation shift sched st :
  cpus h = 0%nat ->
  (exists o st',
      processWithWorkerThreads h files operation shift sched st = (Some o, st')
      /\ results o = [] /\ fs st' = fs st /\ log st' = log st)
  /\ (exists o st',
      processWithChildProcesses h files operation shift sched st
        = (Some (Fulfilled o), st')
      /\ results o = [] /\ fs st' = fs st /\ log st' = log st).
Proof.
  intros Hc.
  assert (Hp : partition files (pool_size h files) = []).
  { unfold pool_size. rewrite Hc. reflexivity. }
  split.
  - rewrite processWithWorkerThreads_unfold. cbv zeta. unfold thread_pool.
    rewrite Hp. unfold launch. cbn [map fold_left]. rewrite run_pool_no_task.
    eexists _, _. split; [reflexivity|]. done.
  - rewrite processWithChildProcesses_unfold. cbv zeta. unfold process_pool.
    rewrite Hp. unfold launch. cbn [map fold_left]. rewrite run_pool_no_task.
    eexists _, _. split; [reflexivity|]. done.
Qed.

Lemma no_core_no_result_witness :
  cpus (demo_host 0) = 0%nat
  /\ exists o st',
      processWithWorkerThreads (demo_host 0) (map uploaded five) "encrypt" 3
        (round_robin 4 9) (demo_state five (js "Hello")) = (Some o, st')
      /\ results o = [].
Proof.
  split; [reflexivity|].
  destruct (no_core_no_result (demo_host 0) (map uploaded five) "encrypt" 3
              (round_robin 4 9) (demo_state five (js "Hello")) eq_refl)
    as [(o & st' & Hrun & Hres & _) _].
  exists o, st'. split; [exact Hrun|exact Hres].
Defined.

(** ** Runners and pools on any host *)

Lemma written_later h operation l added r :
  written h operation l r -> written h operation (l ++ added) r.
Proof.
  intros (Hop & p & data & Hin & Hp & Hs). split; [done|].
  exists p, data. rewrite outputs_app. split; [|done].
  apply in_or_app. by left.
Qed.

Lemma extends_refl st : extends st st.
Proof. split; [done|]. exists []. by rewrite app_nil_r. Qed.

Lemma extends_trans st1 st2 st3 :
  extends st1 st2 -> extends st2 st3 -> extends st1 st3.
Proof.
  intros [Hf1 [a1 Hl1]] [Hf2 [a2 Hl2]]. split; [by auto|].
  exists (a1 ++ a2). by rewrite Hl2, Hl1, app_assoc.
Qed.

(** One action of a runner, on any host. *)
Lemma loop_step_gen h operation shift shards r st :
  runner_gen h operation shards (log st) r ->
  exists adv st' added,
    loop_step h operation shift r st = (adv, st')
    /\ log st' = log st ++ added
    /\ (errors added = 0%nat /\ dispatched added = 0%nat)
    /\ (forall p, is_Some (fs st !! p) -> is_Some (fs st' !! p))
    /\ (forall all fs0, apart h operation all -> incl (shard r) all ->
                        intact fs0 (fs st) all -> intact fs0 (fs st') all)
    /\ match adv with
       | Next r' => runner_gen h operation shards (log st') r'
                    /\ shard r' = shard r
       | LoopDone res =>
           map originalName res = map originalname (shard r)
           /\ Forall (written h operation (log st')) res
       | Thrown => True
       end.
Proof.
  intros (Hshard & (finished & Hsplit & Hnames) & Hwritten & Hphase).
  unfold loop_step. destruct (todo r) as [|file rest] eqn:Htodo.
  - exists (LoopDone (local r)), st, []. rewrite app_nil_r in *.
    repeat split; try done.
    by rewrite Hsplit.
  - destruct (phase r) as [|content|content outputPath] eqn:Hph.
    + (* read *)
      unfold readFile. destruct (fs st !! path file) as [content|] eqn:Hread.
      * eexists (Next _), _, [EvRead (path file)].
        split; [reflexivity|]. repeat split; try done.
        { by exists finished. }
        { simpl. apply Forall_forall. intros x Hx.
          apply written_later. rewrite Forall_forall in Hwritten. by apply Hwritten. }
      * eexists Thrown, _, [EvRead (path file)].
        split; [reflexivity|]. repeat split; done.
    + (* stamp *)
      eexists (Next _), _, []. split; [reflexivity|]. simpl.
      rewrite app_nil_r. repeat split; try done.
      { by exists finished. }
      { simpl. exists file, rest. split; [done|]. right. by eexists _, _. }
    + (* write *)
      destruct Hphase as (f & rest' & Hf & Hout). injection Hf as <- <-.
      unfold writeFile. destruct (writable h outputPath) eqn:Hw.
      * eexists (Next _), _,
          [EvWrite outputPath (caesarCipher content shift (is_decrypt operation))].
        split; [reflexivity|]. simpl. split; [done|]. split; [done|]. split.
        { intros p Hp. rewrite lookup_insert. by case_decide. }
        split.
        { intros all fs0 Hapart Hincl Hint. apply intact_insert; [done|].
          intros g Hg. apply (Hapart g file); [done| |done].
          apply Hincl. rewrite Hsplit. apply in_or_app. right. by left. }
        split; [|done]. repeat split; simpl; try done.
        { exists (finished ++ [file]). rewrite <- app_assoc. split; [done|].
          by rewrite !map_app, Hnames. }
        { apply Forall_app. split.
          - apply Forall_forall. intros x Hx. apply written_later.
            rewrite Forall_forall in Hwritten. by apply Hwritten.
          - constructor; [|constructor]. split; [done|].
            exists outputPath, (caesarCipher content shift (is_decrypt operation)).
            rewrite outputs_app. split.
            + apply in_or_app. right. by left.
            + simpl. split; [done|]. by rewrite caesarCipher_length. }
      * eexists Thrown, _, []. split; [reflexivity|]. rewrite app_nil_r.
        repeat split; done.
Qed.

Lemma task_gen_later h operation shards l added t :
  task_gen h operation shards l t -> task_gen h operation shards (l ++ added) t.
Proof.
  destruct t as [r|]; [|done]. intros (Hs & Hf & Hw & Hp).
  repeat split; try done.
  apply Forall_forall. intros x Hx. apply written_later.
  rewrite Forall_forall in Hw. by apply Hw.
Qed.

Lemma filter_rejecting_app (inbox : list Signal) sig :
  length (List.filter (fun s => negb (resolves s)) (inbox ++ [sig]))
  = (length (List.filter (fun s => negb (resolves s)) inbox)
     + if resolves sig then 0 else 1)%nat.
Proof.
  rewrite List.filter_app, length_app. simpl. by destruct (resolves sig).
Qed.

Section AnyPool.

Context (h : Host) (operation : string) (shift : Z).
Context (on_done : list Result -> Signal) (on_throw : Signal) (tag : string).
Context (Hdone : forall res, pushed (on_done res) = res).
Context (Hthrow : pushed on_throw = []).
Context (Hresolves : forall res, resolves (on_done res) = true).
Context (shards : list (list File)) (st0 : State).

Lemma pool_step_gen dropped p i :
  pool_gen h operation on_done on_throw shards st0 dropped p ->
  exists dropped',
    pool_gen h operation on_done on_throw shards st0 dropped'
      (pool_step (script_of on_done on_throw tag) h operation shift p i).
Proof.
  intros Hp. unfold pool_step.
  destruct (tasks p !! i) as [[r|]|] eqn:Hi; try by exists dropped.
  destruct Hp as [Htasks Hsig Hwr Hdrop Hacc Herr Hdis Hthr Hext Hint].
  assert (Hr : runner_gen h operation shards (log (world p)) r).
  { rewrite Forall_forall in Htasks. apply (Htasks (Running r)).
    by eapply list_elem_of_lookup_2. }
  destruct (loop_step_gen h operation shift shards r (world p) Hr)
    as (adv & st' & added & Heq & Hlog & [Hnoerr Hnodis] & Hkeep & Hsafe & Hadv).
  assert (Hincl : forall all, (forall s, In s shards -> incl s all) ->
                              incl (shard r) all).
  { intros all Hall. apply Hall. by destruct Hr. }
  pose proof (flat_map_insert_swap owed (tasks p) i (Running r) Ended Hi) as Hswap.
  simpl in Hswap. rewrite app_nil_r in Hswap.
  unfold script_of. rewrite Heq. destruct adv as [r'|res|].
  - (* the loop goes on *)
    destruct Hadv as [Hr' Hshard]. exists dropped. constructor; simpl.
    + rewrite Hlog. apply Forall_insert; [|by rewrite <- Hlog].
      eapply Forall_impl; [exact Htasks|]. intros t. apply task_gen_later.
    + by rewrite app_nil_r.
    + rewrite app_nil_r, Hlog. eapply Forall_impl; [exact Hwr|].
      intros x. apply written_later.
    + done.
    + rewrite app_nil_r.
      rewrite (flat_map_insert_same owed _ _ (Running r)); [done|done|].
      simpl. by rewrite Hshard.
    + rewrite Hlog, errors_app. lia.
    + rewrite Hlog, dispatched_app. lia.
    + by rewrite app_nil_r.
    + eapply extends_trans; [exact Hext|]. split; [done|by exists added].
    + intros all Hap Hall. apply Hsafe; [done|by apply Hincl|by apply Hint].
  - (* the loop has ended *)
    destruct Hadv as [Hnames Hres]. exists dropped. constructor; simpl.
    + rewrite Hlog. apply Forall_insert; [|done].
      eapply Forall_impl; [exact Htasks|]. intros t. apply task_gen_later.
    + apply Forall_app. split; [done|]. constructor; [|done]. right. by exists res.
    + rewrite flat_map_app. simpl. rewrite app_nil_r, Hdone.
      apply Forall_app. split; [|done]. rewrite Hlog.
      eapply Forall_impl; [exact Hwr|]. intros x. apply written_later.
    + done.
    + rewrite flat_map_app, map_app. simpl. rewrite app_nil_r, Hdone, Hnames.
      rewrite <- Hacc, <- !app_assoc. f_equiv. rewrite !app_assoc. f_equiv.
      rewrite <- Hswap. apply Permutation_app_comm.
    + rewrite Hlog, errors_app. lia.
    + rewrite Hlog, dispatched_app. lia.
    + rewrite filter_rejecting_app, Hresolves. lia.
    + eapply extends_trans; [exact Hext|]. split; [done|by exists added].
    + intros all Hap Hall. apply Hsafe; [done|by apply Hincl|by apply Hint].
  - (* the runner has thrown *)
    exists (shard r :: dropped). constructor; simpl.
    + rewrite Hlog, <- app_assoc. apply Forall_insert; [|done].
      eapply Forall_impl; [exact Htasks|]. intros t. apply task_gen_later.
    + apply Forall_app. split; [done|]. constructor; [|done]. by left.
    + rewrite flat_map_app. simpl. rewrite app_nil_r, Hthrow, app_nil_r.
      rewrite Hlog, <- app_assoc.
      eapply Forall_impl; [exact Hwr|]. intros x. apply written_later.
    + constructor; [by destruct Hr|done].
    + rewrite flat_map_app, map_app. simpl. rewrite app_nil_r, Hthrow. simpl.
      rewrite app_nil_r, map_app.
      rewrite <- Hacc. f_equiv. rewrite !app_assoc. f_equiv.
      rewrite <- Hswap. done.
    + rewrite Hlog, !errors_app. unfold errors at 3. simpl. lia.
    + rewrite Hlog, !dispatched_app. unfold dispatched at 3. simpl. lia.
    + rewrite filter_rejecting_app. destruct (resolves on_throw); lia.
    + eapply extends_trans; [exact Hext|]. split; [done|].
      exists (added ++ [EvError tag]). simpl. by rewrite Hlog, <- app_assoc.
    + intros all Hap Hall. apply Hsafe; [done|by apply Hincl|by apply Hint].
Qed.

Lemma run_pool_gen sched dropped p :
  pool_gen h operation on_done on_throw shards st0 dropped p ->
  exists dropped',
    pool_gen h operation on_done on_throw shards st0 dropped'
      (run_pool (script_of on_done on_throw tag) h operation shift sched p).
Proof.
  unfold run_pool. revert dropped p.
  induction sched as [|i sched IH]; intros dropped p Hp; [by exists dropped|].
  cbn [fold_left]. destruct (pool_step_gen dropped p i Hp) as [dropped' Hp'].
  by eapply IH.
Qed.

End AnyPool.

Lemma launch_log ev shards st :
  log (world (launch ev shards st)) = log st ++ map ev shards.
Proof.
  unfold launch. cbn [world]. revert st.
  induction shards as [|s shards IH]; intros st; simpl; [by rewrite app_nil_r|].
  rewrite IH. simpl. by rewrite <- app_assoc.
Qed.

Lemma launch_owed (shards : list (list File)) :
  flat_map owed (map (fun s => Running (start_runner s)) shards)
  = map originalname (concat shards).
Proof.
  induction shards as [|s shards IH]; simpl; [done|]. by rewrite map_app, IH.
Qed.

Lemma dispatched_launch ev (shards : list (list File)) :
  (forall s, is_dispatch (ev s) = true) ->
  dispatched (map ev shards) = length shards.
Proof.
  intros Hev. unfold dispatched. induction shards as [|s shards IH]; [done|].
  simpl. rewrite Hev. simpl. by rewrite IH.
Qed.

Lemma launch_gen h operation on_done on_throw ev shards st0 st :
  (forall s, is_error (ev s) = false) ->
  (forall s, is_dispatch (ev s) = true) ->
  fs st = fs st0 -> log st = log st0 ->
  pool_gen h operation on_done on_throw shards st0 [] (launch ev shards st).
Proof.
  intros Hev Hdis Hfs Hlog.
  destruct (launch_world ev shards st Hev) as (Hf & _ & He).
  constructor.
  - simpl. apply Forall_forall. intros t Ht.
    apply list_elem_of_In, in_map_iff in Ht. destruct Ht as (s & <- & Hs).
    simpl. repeat split; simpl; try done. by exists [].
  - constructor.
  - constructor.
  - constructor.
  - simpl. by rewrite launch_owed, app_nil_r.
  - rewrite He, Hlog. simpl. lia.
  - by rewrite launch_log, dispatched_app, dispatched_launch, Hlog.
  - simpl. by destruct (resolves on_throw).
  - split.
    + intros p. by rewrite Hf, Hfs.
    + exists (map ev shards). by rewrite launch_log, Hlog.
  - intros all _ _ f _. by rewrite Hf, Hfs.
Qed.

Lemma thread_pool_gen h files operation shift sched st :
  exists dropped,
    pool_gen h operation Message (Message [])
      (partition files (pool_size h files)) st dropped
      (thread_pool h files operation shift sched st).
Proof.
  unfold thread_pool. rewrite CryptoWorker_script.
  eapply run_pool_gen; try done. by apply launch_gen.
Qed.

Lemma process_pool_gen h files operation shift sched st :
  exists dropped,
    pool_gen h operation (Close 0) (Close 1 [])
      (partition files (pool_size h files)) st dropped
      (process_pool h files operation shift sched st).
Proof.
  unfold process_pool. rewrite CryptoProcess_script.
  eapply run_pool_gen; try done. by apply launch_gen.
Qed.

Lemma pool_concat h (files : list File) :
  (1 <= cpus h)%nat -> concat (partition files (pool_size h files)) = files.
Proof.
  intros Hcpu. destruct files as [|f l].
  - unfold pool_size. simpl. by rewrite Nat.min_0_r.
  - apply partition_concat. unfold pool_size. simpl. lia.
Qed.

Lemma rejections_counted (inbox : list Signal) :
  length (omap rejection inbox)
  = length (List.filter (fun sig => negb (resolves sig)) inbox).
Proof.
  induction inbox as [|sig inbox IH]; [done|].
  cbn [omap list_omap List.filter].
  destruct sig as [res|code output]; simpl; [done|].
  destruct (code =? 0); simpl; by rewrite IH.
Qed.

(** X9: on any host with at least one core, whatever fails and whatever
    the schedule, the thread pool never rejects: it returns once its
    tasks have acted often enough, and its results are the batch without
    the shards whose worker failed, each such shard being dropped as a
    whole and logged as exactly one error. *)
Theorem thread_pool_drops_whole_shards h (files : list File) operation shift st :
  (1 <= cpus h)%nat ->
  (forall k, (3 * length files + 3 <= k)%nat ->
     is_Some (processWithWorkerThreads h files operation shift
                (round_robin (length (partition files (pool_size h files))) k) st).1)
  /\ (forall sched o st',
        processWithWorkerThreads h files operation shift sched st = (Some o, st') ->
        exists dropped,
          Forall (fun s => In s (partition files (pool_size h files))) dropped
          /\ map originalName (results o) ++ map originalname (concat dropped)
             ≡ₚ map originalname files
          /\ errors (log st') = (errors (log st) + length dropped)%nat).
Proof.
  intros Hcpu. split.
  - intros k Hk. rewrite processWithWorkerThreads_unfold. cbv zeta.
    rewrite thread_pool_ends by done. by eexists.
  - intros sched o st'. rewrite processWithWorkerThreads_unfold. cbv zeta.
    destruct (thread_pool_gen h files operation shift sched st) as [dropped Hg].
    destruct (all_ended _) eqn:Hend; [|done]. intros [= <- <-].
    exists dropped. split; [by destruct Hg|]. split.
    + pose proof (g_account _ _ _ _ _ _ _ _ Hg) as Hacc.
      assert (Hnone : flat_map owed
                        (tasks (thread_pool h files operation shift sched st)) = []).
      { clear -Hend. unfold all_ended in Hend.
        induction (tasks _) as [|[r|] l IH]; simpl in *; try done. by apply IH. }
      rewrite Hnone, pool_concat in Hacc by done. exact Hacc.
    + simpl. by destruct Hg.
Qed.

Lemma thread_pool_drops_whole_shards_witness :
  (1 <= cpus (demo_host 2))%nat
  /\ is_Some (processWithWorkerThreads (demo_host 2)
                (map uploaded ["a.txt"; "b.txt"; "c.txt"]) "encrypt" 3
                (round_robin
                   (length (partition (map uploaded ["a.txt"; "b.txt"; "c.txt"])
                              (pool_size (demo_host 2)
                                 (map uploaded ["a.txt"; "b.txt"; "c.txt"]))))
                   12)
                (demo_state ["a.txt"; "c.txt"] (js "Hello"))).1.
Proof.
  split; [simpl; lia|].
  apply (thread_pool_drops_whole_shards (demo_host 2)
           (map uploaded ["a.txt"; "b.txt"; "c.txt"]) "encrypt" 3
           (demo_state ["a.txt"; "c.txt"] (js "Hello"))).
  - simpl. lia.
  - simpl. lia.
Defined.

(** X10: on any host with at least one core and under any schedule, the
    process pool settles once its tasks have acted often enough; when it
    fulfils, every job has exactly one result and no error was logged;
    when it rejects, the error is that of a child that exited with code 1
    and logged its failure. *)
Theorem process_pool_all_or_nothing h (files : list File) operation shift st :
  (1 <= cpus h)%nat ->
  (forall k, (3 * length files + 3 <= k)%nat ->
     is_Some (processWithChildProcesses h files operation shift
                (round_robin (length (partition files (pool_size h files))) k) st).1)
  /\ (forall sched o st',
        processWithChildProcesses h files operation shift sched st
          = (Some (Fulfilled o), st') ->
        accounted files o /\ errors (log st') = errors (log st))
  /\ (forall sched message st',
        processWithChildProcesses h files operation shift sched st
          = (Some (Rejected message), st') ->
        message = "Process exited with code 1"
        /\ (errors (log st) < errors (log st'))%nat).
Proof.
  intros Hcpu. split; [|split].
  - intros k Hk. rewrite processWithChildProcesses_unfold. cbv zeta.
    destruct (omap rejection _) as [|m l]; [|by eexists].
    rewrite process_pool_ends by done. by eexists.
  - intros sched o st'. rewrite processWithChildProcesses_unfold. cbv zeta.
    destruct (process_pool_gen h files operation shift sched st) as [dropped Hg].
    destruct (omap rejection _) as [|m l] eqn:Hrej; [|done].
    destruct (all_ended _) eqn:Hend; [|done]. intros [= <- <-].
    assert (Hd : dropped = []).
    { pose proof (g_thrown _ _ _ _ _ _ _ _ Hg) as Hthr.
      rewrite <- rejections_counted, Hrej in Hthr. simpl in Hthr.
      destruct dropped; [done|discriminate Hthr]. }
    subst dropped. split.
    + pose proof (g_account _ _ _ _ _ _ _ _ Hg) as Hacc.
      assert (Hnone : flat_map owed
                        (tasks (process_pool h files operation shift sched st)) = []).
      { clear -Hend. unfold all_ended in Hend.
        induction (tasks _) as [|[r|] l IH]; simpl in *; try done. by apply IH. }
      rewrite Hnone, pool_concat in Hacc by done. simpl in Hacc.
      rewrite app_nil_r in Hacc. exact Hacc.
    + simpl. rewrite (g_errors _ _ _ _ _ _ _ _ Hg). simpl. lia.
  - intros sched message st'. rewrite processWithChildProcesses_unfold. cbv zeta.
    destruct (process_pool_gen h files operation shift sched st) as [dropped Hg].
    destruct (omap rejection _) as [|m l] eqn:Hrej.
    { destruct (all_ended _); intros [=]. }
    intros [= <- <-]. split.
    + assert (Hin : In m (omap rejection
                 (arrived (process_pool h files operation shift sched st))))
        by (rewrite Hrej; by left).
      apply list_elem_of_In, list_elem_of_omap in Hin.
      destruct Hin as (sig & Hsig & Hm).
      pose proof (g_signals _ _ _ _ _ _ _ _ Hg) as Hall.
      rewrite Forall_forall in Hall. destruct (Hall sig Hsig) as [->|[res ->]].
      * simpl in Hm. by injection Hm as <-.
      * discriminate Hm.
    + pose proof (g_thrown _ _ _ _ _ _ _ _ Hg) as Hthr.
      rewrite <- rejections_counted, Hrej in Hthr. simpl in Hthr.
      rewrite (g_errors _ _ _ _ _ _ _ _ Hg). lia.
Qed.

Lemma process_pool_all_or_nothing_witness :
  (1 <= cpus (demo_host 2))%nat
  /\ is_Some (processWithChildProcesses (demo_host 2)
                (map uploaded ["a.txt"; "b.txt"; "c.txt"]) "encrypt" 3
                (round_robin
                   (length (partition (map uploaded ["a.txt"; "b.txt"; "c.txt"])
                              (pool_size (demo_host 2)
                                 (map uploaded ["a.txt"; "b.txt"; "c.txt"]))))
                   12)
                (demo_state ["a.txt"; "c.txt"] (js "Hello"))).1.
Proof.
  split; [simpl; lia|].
  apply (process_pool_all_or_nothing (demo_host 2)
           (map uploaded ["a.txt"; "b.txt"; "c.txt"]) "encrypt" 3
           (demo_state ["a.txt"; "c.txt"] (js "Hello"))).
  - simpl. lia.
  - simpl. lia.
Defined.

(** X11: every result that a pool returns, on any host and under any
    schedule, stands for a write that was completed: it carries the
    operation of the request, its [processedPath] is the base name of a
    path that was written, and its [size] is the length of the content
    written there. *)
Theorem pool_results_are_written h (files : list File) operation shift sched st :
  (forall o st',
      processWithWorkerThreads h files operation shift sched st = (Some o, st') ->
      Forall (written h operation (log st')) (results o))
  /\ (forall o st',
      processWithChildProcesses h files operation shift sched st
        = (Some (Fulfilled o), st') ->
      Forall (written h operation (log st')) (results o)).
Proof.
  split.
  - intros o st'. rewrite processWithWorkerThreads_unfold. cbv zeta.
    destruct (thread_pool_gen h files operation shift sched st) as [dropped Hg].
    destruct (all_ended _); [|done]. intros [= <- <-]. simpl. by destruct Hg.
  - intros o st'. rewrite processWithChildProcesses_unfold. cbv zeta.
    destruct (process_pool_gen h files operation shift sched st) as [dropped Hg].
    destruct (omap rejection _); [|done].
    destruct (all_ended _); [|done]. intros [= <- <-]. simpl. by destruct Hg.
Qed.

(** ** What no executor does *)

Lemma shard_loop_incl (files : list File) (k n i : nat) s :
  In s (shard_loop files k n i) -> incl s files.
Proof.
  revert i. induction n as [|n IH]; intros i; simpl; [done|].
  destruct (slice files (i * k) ((i + 1) * k)) as [|f l] eqn:Hs; [done|].
  intros [<-|Hin]; [|by eapply IH].
  rewrite <- Hs. unfold slice. intros x Hx.
  apply list_elem_of_In in Hx. apply list_elem_of_In.
  eapply elem_of_sublist; [exact Hx|].
  etrans; [apply sublist_take|apply sublist_drop].
Qed.

Lemma seq_loop_safe h operation shift (all files : list File) :
  incl files all ->
  forall res st res' st',
  fold_left (seq_iteration h operation shift) files (res, st) = (res', st') ->
  extends st st'
  /\ (forall fs0, apart h operation all ->
                  intact fs0 (fs st) all -> intact fs0 (fs st') all).
Proof.
  induction files as [|file files IH]; intros Hincl res st res' st' Hrun;
    cbn [fold_left] in Hrun.
  - injection Hrun as <- <-. split; [apply extends_refl|done].
  - assert (Hfile : In file all) by (apply Hincl; by left).
    assert (Hincl' : incl files all) by (intros x Hx; apply Hincl; by right).
    destruct (seq_iteration_cases h operation shift res st file)
      as [(content & Hread & Hw & Heq)|(k & Hfail & Heq)];
      rewrite Heq in Hrun; apply IH in Hrun; try done;
      destruct Hrun as [Hext Hint]; split.
    + eapply extends_trans; [|exact Hext]. split; simpl.
      * intros p Hp. rewrite lookup_insert. by case_decide.
      * by eexists.
    + intros fs0 Hapart H0. apply Hint; [done|]. simpl.
      apply intact_insert; [done|]. intros g Hg.
      apply (Hapart g file); [done|done|]. left. by eexists.
    + eapply extends_trans; [|exact Hext]. split; simpl; [done|by eexists].
    + intros fs0 Hapart H0. by apply Hint.
Qed.

(** X12: no executor removes a file or a log entry, whatever fails and
    whatever the schedule; and when no output path of the batch is the
    path of one of its sources, every source still has, after the run,
    the content it had before. *)
Theorem executors_keep_files h (files : list File) operation shift sched st :
  let after_sequential := (processSequentially h files operation shift st).2 in
  let after_threads := (processWithWorkerThreads h files operation shift sched st).2 in
  let after_children := (processWithChildProcesses h files operation shift sched st).2 in
  (extends st after_sequential /\ extends st after_threads
   /\ extends st after_children)
  /\ (apart h operation files ->
      intact (fs st) (fs after_sequential) files
      /\ intact (fs st) (fs after_threads) files
      /\ intact (fs st) (fs after_children) files).
Proof.
  intros after_sequential after_threads after_children.
  assert (Hshards : forall s, In s (partition files (pool_size h files)) ->
                              incl s files)
    by (intros s; apply shard_loop_incl).
  destruct (processSequentially_unfold h files operation shift st)
    as (res & st1 & Hfold & Hseq).
  apply (seq_loop_safe h operation shift files files) in Hfold;
    [|by intros f Hf]. destruct Hfold as [Hext1 Hint1].
  destruct (thread_pool_gen h files operation shift sched st) as [d2 Hg2].
  destruct (process_pool_gen h files operation shift sched st) as [d3 Hg3].
  assert (Hthreads : fs after_threads
                     = fs (world (thread_pool h files operation shift sched st))
                     /\ log after_threads
                        = log (world (thread_pool h files operation shift sched st))).
  { subst after_threads. rewrite processWithWorkerThreads_unfold. cbv zeta.
    by destruct (all_ended _). }
  assert (Hchildren : fs after_children
                     = fs (world (process_pool h files operation shift sched st))
                     /\ log after_children
                        = log (world (process_pool h files operation shift sched st))).
  { subst after_children. rewrite processWithChildProcesses_unfold. cbv zeta.
    destruct (omap rejection _); [|done]. by destruct (all_ended _). }
  destruct Hthreads as [Hf2 Hl2]. destruct Hchildren as [Hf3 Hl3].
  assert (Hsame : forall st1 st2, fs st2 = fs st1 -> log st2 = log st1 ->
                                  extends st st1 -> extends st st2).
  { intros s1 s2 Hf Hl [Hk [added Ha]]. split.
    - intros p. rewrite Hf. apply Hk.
    - exists added. by rewrite Hl. }
  split.
  - split; [|split].
    + subst after_sequential. rewrite Hseq. simpl.
      eapply (Hsame st1); [done|done|].
      eapply extends_trans; [|exact Hext1]. split; [done|]. exists []. simpl.
      by rewrite app_nil_r.
    + eapply Hsame; [exact Hf2|exact Hl2|by destruct Hg2].
    + eapply Hsame; [exact Hf3|exact Hl3|by destruct Hg3].
  - intros Hapart. split; [|split].
    + subst after_sequential. rewrite Hseq. simpl. apply Hint1; [done|].
      by intros f Hf.
    + rewrite Hf2. by apply (g_intact _ _ _ _ _ _ _ _ Hg2).
    + rewrite Hf3. by apply (g_intact _ _ _ _ _ _ _ _ Hg3).
Qed.

(** X13: on any host the sequential executor accounts for every job in
    one of two ways: the job has a result, or one error was logged for
    it; the results follow the order of the jobs and none is invented. *)
Theorem sequential_result_or_error h (files : list File) operation shift st :
  let run := processSequentially h files operation shift st in
  sublist (map originalName (results run.1)) (map originalname files)
  /\ (length (results run.1) <= length files)%nat
  /\ errors (log run.2)
     = (errors (log st) + (length files - length (results run.1)))%nat.
Proof.
  intros run. subst run.
  destruct (processSequentially_unfold h files operation shift st)
    as (res & st1 & Hfold & ->). simpl.
  apply seq_loop_trace in Hfold.
  destruct Hfold as (new & written & -> & _ & _ & Hsub & Hcount & Hle & _).
  simpl in *. split; [done|]. lia.
Qed.


(** ** Bounded pools and elapsed time *)

(** X15: a pool creates exactly one worker or child per shard, never
    more than the host has cores and never more than there are files;
    the sequential executor creates none. *)
Theorem pools_are_bounded h (files : list File) operation shift sched st :
  let shards := partition files (pool_size h files) in
  (length shards <= cpus h)%nat /\ (length shards <= length files)%nat
  /\ dispatched (log (processWithWorkerThreads h files operation shift sched st).2)
     = (dispatched (log st) + length shards)%nat
  /\ dispatched (log (processWithChildProcesses h files operation shift sched st).2)
     = (dispatched (log st) + length shards)%nat
  /\ dispatched (log (processSequentially h files operation shift st).2)
     = dispatched (log st).
Proof.
  intros shards.
  assert (Hb : (length shards <= pool_size h files)%nat)
    by apply shard_loop_bound.
  unfold pool_size in Hb. split; [lia|]. split; [lia|].
  destruct (thread_pool_gen h files operation shift sched st) as [d2 Hg2].
  destruct (process_pool_gen h files operation shift sched st) as [d3 Hg3].
  split; [|split].
  - rewrite processWithWorkerThreads_unfold. cbv zeta.
    destruct (all_ended _); simpl; by destruct Hg2.
  - rewrite processWithChildProcesses_unfold. cbv zeta.
    destruct (omap rejection _); [|by destruct Hg3].
    destruct (all_ended _); simpl; by destruct Hg3.
  - destruct (processSequentially_unfold h files operation shift st)
      as (res & st1 & Hfold & ->). simpl.
    apply seq_loop_trace in Hfold.
    by destruct Hfold as (new & written & _ & _ & _ & _ & _ & _ & Hdis & _).
Qed.

(** X16: when the clock read by [Date.now()] never steps back, every
    executor reports a processing time that is not negative, whatever
    fails and whatever the schedule. *)
Theorem processing_time_not_negative h (files : list File) operation shift sched st :
  monotone h ->
  0 <= processingTime (processSequentially h files operation shift st).1
  /\ (forall o st',
        processWithWorkerThreads h files operation shift sched st = (Some o, st') ->
        0 <= processingTime o)
  /\ (forall o st',
        processWithChildProcesses h files operation shift sched st
          = (Some (Fulfilled o), st') ->
        0 <= processingTime o).
Proof.
  intros Hmono. split; [|split].
  - destruct (processSequentially_unfold h files operation shift st)
      as (res & st1 & Hfold & ->). simpl.
    apply seq_loop_trace in Hfold.
    destruct Hfold as (new & written & _ & _ & _ & _ & _ & _ & _ & Ht).
    simpl in Ht. specialize (Hmono (ticks st) (ticks st1)). lia.
  - intros o st'. rewrite processWithWorkerThreads_unfold. cbv zeta.
    pose proof (thread_pool_ticks h files operation shift sched st) as Ht.
    destruct (all_ended _); [|done]. intros [= <- <-]. simpl.
    specialize (Hmono (ticks st)
      (ticks (world (thread_pool h files operation shift sched st)))). lia.
  - intros o st'. rewrite processWithChildProcesses_unfold. cbv zeta.
    pose proof (process_pool_ticks h files operation shift sched st) as Ht.
    destruct (omap rejection _); [|done].
    destruct (all_ended _); [|done]. intros [= <- <-]. simpl.
    specialize (Hmono (ticks st)
      (ticks (world (process_pool h files operation shift sched st)))). lia.
Qed.

Lemma processing_time_not_negative_witness :
  monotone (demo_host 4)
  /\ 0 <= processingTime
            (processSequentially (demo_host 4) (map uploaded five) "encrypt" 3
               (demo_state ["a.txt"] (js "Hello"))).1.
Proof.
  split; [apply demo_monotone|].
  apply (processing_time_not_negative (demo_host 4) (map uploaded five) "encrypt" 3
           [] (demo_state ["a.txt"] (js "Hello")) (demo_monotone 4)).
Defined.

(** ** Output names of the sequential executor *)

(** X17: the sequential executor names an output after the operation,
    the clock reading and the original name only: when two jobs of the
    same original name are processed at the same clock reading, both
    results name the same path and the output of the first job is
    overwritten by the output of the second. *)
Theorem sequential_outputs_can_collide h (f g : File) operation shift st cf cg :
  fs st !! path f = Some cf -> fs st !! path g = Some cg ->
  originalname f = originalname g ->
  clock h (S (ticks st)) = clock h (S (S (ticks st))) ->
  accepting h -> apart h operation [f; g] ->
  let run := processSequentially h [f; g] operation shift st in
  exists p,
    map processedPath (results run.1) = [p; p]
    /\ fs run.2 !! p = Some (caesarCipher cg shift (is_decrypt operation))
    /\ errors (log run.2) = errors (log st).
Proof.
  intros Hf Hg Hname Hclock Hacc Hapart run. subst run.
  destruct (processSequentially_unfold h [f; g] operation shift st)
    as (res & st2 & Hfold & ->).
  cbn [fold_left] in Hfold.
  destruct (seq_iteration_cases h operation shift [] (dateNow h st).2 f)
    as [(c1 & Hr1 & _ & Heq1)|(k & [Hn|Hw] & _)];
    [|simpl in Hn; congruence|by rewrite Hacc in Hw].
  simpl in Hr1. rewrite Hf in Hr1. injection Hr1 as <-.
  rewrite Heq1 in Hfold. clear Heq1.
  match type of Hfold with
  | seq_iteration _ _ _ (?r, ?s) _ = _ =>
      destruct (seq_iteration_cases h operation shift r s g)
        as [(c2 & Hr2 & _ & Heq2)|(k & [Hn|Hw] & _)]
  end.
  - simpl in Hr2.
    rewrite lookup_insert_ne in Hr2.
    2:{ apply (Hapart g f); [by right; left|by left|]. left. by eexists. }
    rewrite Hg in Hr2. injection Hr2 as <-.
    rewrite Heq2 in Hfold. injection Hfold as <- <-. simpl.
    rewrite <- Hclock, <- Hname.
    exists (seq_outputPath h operation (clock h (S (ticks st))) (originalname f)).
    split; [done|]. split; [apply lookup_insert_eq|].
    rewrite !errors_app. unfold errors at 2 3. simpl. lia.
  - simpl in Hn. rewrite lookup_insert_ne in Hn.
    2:{ apply (Hapart g f); [by right; left|by left|]. left. by eexists. }
    congruence.
  - by rewrite Hacc in Hw.
Qed.

Lemma sequential_outputs_can_collide_witness :
  let h := {| cpus := 1; clock := fun _ => 1700000000000;
              random := fun k => "r" +:+ pretty k; writable := fun _ => true;
              path_join := fun a b => a +:+ "/" +:+ b;
              path_basename := fun p => basename_from p "" |} in
  let f := {| originalname := "a.txt"; filename := "1-a.txt";
              path := "uploads/1-a.txt"; fsize := 5 |} in
  let g := {| originalname := "a.txt"; filename := "2-a.txt";
              path := "uploads/2-a.txt"; fsize := 3 |} in
  let st := {| fs := {[ "uploads/1-a.txt" := js "Hello"; "uploads/2-a.txt" := js "Bye" ]};
               ticks := 0; draws := 0; log := [] |} in
  exists p,
    map processedPath (results (processSequentially h [f; g] "encrypt" 3 st).1) = [p; p]
    /\ fs (processSequentially h [f; g] "encrypt" 3 st).2 !! p = Some (js "Ebh").
Proof.
  intros h f g st.
  destruct (sequential_outputs_can_collide h f g "encrypt" 3 st (js "Hello") (js "Bye"))
    as (p & Hp & Hfs & _).
  - reflexivity.
  - reflexivity.
  - reflexivity.
  - reflexivity.
  - by intros p.
  - intros a b p Ha Hb Hout Heq.
    assert (Hpre : exists x, p = "processed/" +:+ x).
    { destruct Hout as [[now ->]|(now & token & ->)]; by eexists. }
    destruct Hpre as [x ->].
    destruct Ha as [<-|[<-|[]]]; discriminate Heq.
  - exists p. split; [exact Hp|exact Hfs].
Defined.
